(** * npm-search: the change-stream consumer (src/watch.ts), its retry
      backoff (src/utils/wait.ts) and the escaping pass of formatPkg.

    The development is a shallow embedding.  JavaScript numbers that the
    code only ever uses as integers (retry counters, sequence numbers,
    millisecond delays) are [Z]; strings are [string]; an asynchronous
    function is unfolded into the segments that run between two [await]s,
    and the event loop is a transition system whose labels are the
    things that can happen next (an event of the changes reader, or the
    settlement of a promise owned by a collaborator).  Every call made on a
    collaborator is appended to a log, so that ordering properties are
    statements about that log. *)

From Stdlib Require Import ZArith Lia Ascii String.
From stdpp Require Import base numbers option list strings gmap sorting pretty.

Open Scope Z_scope.

(** ** Values shared by the modules *)

(** A JavaScript error value.  The code never looks inside one. *)
Definition Err : Type := string.

Module Change.
(** A row of the changes feed as the reader hands it to the ['change']
    listener.  [id] is [None] when the property is absent. *)
Record t : Type := mk {
  id : option string;
  seq : Z;
  changes : list string;
  deleted : bool
}.
End Change.

(** The object literal given to [mainQueueIndex.saveObject]. *)
Record QueueObject : Type := {
  objectID : option string;
  retries : Z;
  change : Change.t
}.

(** The three indexers a [Watch] owns. *)
Inductive IndexerName : Type :=
| OneTimeBackgroundIndexer
| PeriodicBackgroundIndexer
| MainWatchIndexer.

(** An argument of a [log.info] call.  [percent seq total] stands for
    [((Math.max(seq, 1) / total) * 100).toFixed(2)], which is kept
    symbolic: it is a floating-point formatting nobody branches on. *)
Inductive LogArg : Type :=
| num (z : Z)
| str (s : string)
| percent (seq total : Z).

(** A call on a collaborator (logger, timer, changes reader, queue index,
    state manager, metrics, error tracker, indexers). *)
Inductive Call : Type :=
| log_info (args : list LogArg)
| log_err (msg : string) (err : Err)
| setTimeout (waitTime : Z)
| changesReader_pause
| changesReader_resume
| changesReader_stop
| saveObject (o : QueueObject)
| fetchQueueLength
| datadog_gauge (name : string) (value : Z)
| stateManager_save (seq : Z)
| sentry_report (err : Err) (context : list (string * Err))
| indexer_stop (which : IndexerName)
| removeAllListeners.

(** [!x] for a value that is a string or absent. *)
Definition falsy (x : option string) : bool :=
  match x with
  | None => true
  | Some s => String.eqb s ""
  end.

(** [config.retryBackoffPow] and [config.retryBackoffMax]; config.ts is not
    part of the sources at hand, so the two constants are parameters. *)
Record Config : Type := {
  retryBackoffPow : Z;
  retryBackoffMax : Z
}.

(** ** utils/wait.ts *)

Module Wait.

(** [wait(waitTime)]: one timer is armed; the promise resolves when it
    fires. *)
Definition wait (waitTime : Z) : list Call := [setTimeout waitTime].

(** The constant [bo] of [backoff]:
    [Math.min(Math.pow(retry + 1, pow) * 1000, max)].  The numbers of the
    code are doubles; they are taken here as integers, on which [Math.pow]
    is [Z.pow] as long as the exponent is not negative and the power times
    1000 stays below 2^53, where doubles start to round. *)
Definition bo (retry pow max : Z) : Z :=
  Z.min ((retry + 1) ^ pow * 1000) max.

(** [backoff(retry, pow, max)] up to its [await]: the log line, then the
    timer. *)
Definition backoff (retry pow max : Z) : list Call :=
  log_info [str "Retrying ("; num retry; str "), waiting for";
            num (bo retry pow max)]
  :: wait (bo retry pow max).

End Wait.

(** ** watch.ts *)

Module Watch.

(** Where an invocation chain of [storeChange] is suspended. *)
Inductive Suspended : Type :=
| at_saveObject (retry : Z)
    (* inside [storeChange(retry)], at [await ...saveObject(...)] *)
| at_backoff (newRetry : Z).
    (* inside the [catch], at [await backoff(newRetry, ...)] *)

(** A change being forwarded: the [change] the closure captured, and the
    point where the chain is suspended. *)
Record Forward : Type := {
  fwd_change : Change.t;
  fwd_at : Suspended
}.

(** The state of the event loop as far as [launchChangeReader] is
    concerned. *)
Record State : Type := {
  paused : bool;            (* flow control flag of the changes reader *)
  forwarding : list Forward;(* storeChange chains not yet resolved *)
  progress : list Z;        (* logProgress(seq) awaiting fetchQueueLength *)
  saving : list Z;          (* stateManager.save({seq}) not yet settled *)
  totalSequence : Z;        (* this.totalSequence *)
  calls : list Call         (* every call made so far, oldest first *)
}.

Definition emit (cs : list Call) (s : State) : State :=
  {| paused := paused s; forwarding := forwarding s;
     progress := progress s; saving := saving s;
     totalSequence := totalSequence s; calls := calls s ++ cs |}.

Definition set_paused (b : bool) (s : State) : State :=
  {| paused := b; forwarding := forwarding s;
     progress := progress s; saving := saving s;
     totalSequence := totalSequence s; calls := calls s |}.

Definition set_forwarding (l : list Forward) (s : State) : State :=
  {| paused := paused s; forwarding := l;
     progress := progress s; saving := saving s;
     totalSequence := totalSequence s; calls := calls s |}.

Definition set_progress (l : list Z) (s : State) : State :=
  {| paused := paused s; forwarding := forwarding s;
     progress := l; saving := saving s;
     totalSequence := totalSequence s; calls := calls s |}.

Definition set_saving (l : list Z) (s : State) : State :=
  {| paused := paused s; forwarding := forwarding s;
     progress := progress s; saving := l;
     totalSequence := totalSequence s; calls := calls s |}.

Definition set_totalSequence (z : Z) (s : State) : State :=
  {| paused := paused s; forwarding := forwarding s;
     progress := progress s; saving := saving s;
     totalSequence := z; calls := calls s |}.

(** The state right after [launchChangeReader] attached its listeners. *)
Definition listening : State :=
  {| paused := false; forwarding := []; progress := []; saving := [];
     totalSequence := 0; calls := [] |}.

(** What the environment can do next. *)
Inductive Event : Type :=
| on_change (change : Change.t)      (* the reader emits 'change' *)
| on_error (err : Err)               (* the reader emits 'error' *)
| saveObject_settled (i : nat) (rejected : option Err)
    (* the saveObject promise awaited by the i-th forward settles *)
| timeout_fired (i : nat)
    (* the backoff timer of the i-th forward fires *)
| fetchQueueLength_settled (i : nat) (result : Err + Z)
| save_settled (i : nat) (rejected : option Err)
| info_tick (update_seq : Z).
    (* the setInterval callback of run() got npm.db.info() *)

Section WithConfig.

Variable config : Config.

(** The object literal of storeChange. *)
Definition queueObject (change : Change.t) : QueueObject :=
  {| objectID := Change.id change; retries := 0; change := change |}.

(** [storeChange(retry)] from its entry to the first [await]: the call
    to saveObject is made, and the function suspends on its promise. *)
Definition storeChange (change : Change.t) (retry : Z)
  : list Call * Suspended :=
  ([saveObject (queueObject change)], at_saveObject retry).

(** The [catch] block of [storeChange(retry)] up to [await backoff]. *)
Definition storeChange_catch (retry : Z) (err : Err)
  : list Call * Suspended :=
  let newRetry := retry + 1 in
  (log_err "Error adding a change to the queue." err
     :: Wait.backoff newRetry (retryBackoffPow config)
          (retryBackoffMax config),
   at_backoff newRetry).

(** [logProgress(seq)] after [fetchQueueLength] resolved. *)
Definition logProgress_rest (total seq queueLength : Z) : list Call :=
  [datadog_gauge "sequence.total" total;
   datadog_gauge "sequence.current" seq;
   log_info [str "[progress] Synced %d/%d changes (%s%) (%s remaining) (%s in queue)";
             num seq; num total; percent seq total;
             num (total - seq); num queueLength]].

(** The ['change'] listener, run to completion (every asynchronous
    function it starts runs up to its first [await]). *)
Definition change_listener (change : Change.t) (s : State) : State :=
  if falsy (Change.id change) then s
  else
    let s := emit [changesReader_pause] (set_paused true s) in
    let '(cs, k) := storeChange change 0 in
    let s := emit cs (set_forwarding
               (forwarding s ++ [{| fwd_change := change; fwd_at := k |}])
               s) in
    let s := emit [fetchQueueLength]
               (set_progress (progress s ++ [Change.seq change]) s) in
    emit [stateManager_save (Change.seq change)]
      (set_saving (saving s ++ [Change.seq change]) s).

(** One turn of the event loop.  [None]: the event cannot happen in
    this state (there is no such pending promise or timer).

    Modelled from the spec: the changes reader is nano's, an external
    collaborator; its contract (4.3) is that [pause()] stops the
    delivery of further events until [resume()].  Hence [on_change] is
    possible only while the reader is not paused. *)
Definition step (s : State) (ev : Event) : option State :=
  match ev with
  | on_change change =>
      if paused s then None else Some (change_listener change s)
  | on_error err =>
      Some (emit [sentry_report err []] s)
  | saveObject_settled i rejected =>
      match forwarding s !! i with
      | Some {| fwd_change := change; fwd_at := at_saveObject retry |} =>
          match rejected with
          | None =>
              (* storeChange resolves, and with it the outermost
                 promise: the [then] callback runs *)
              Some (emit [changesReader_resume]
                      (set_paused false
                         (set_forwarding (delete i (forwarding s)) s)))
          | Some err =>
              let '(cs, k) := storeChange_catch retry err in
              Some (emit cs
                      (set_forwarding
                         (<[i := {| fwd_change := change; fwd_at := k |}]>
                            (forwarding s)) s))
          end
      | _ => None
      end
  | timeout_fired i =>
      match forwarding s !! i with
      | Some {| fwd_change := change; fwd_at := at_backoff newRetry |} =>
          (* [return storeChange(newRetry)] *)
          let '(cs, k) := storeChange change newRetry in
          Some (emit cs
                  (set_forwarding
                     (<[i := {| fwd_change := change; fwd_at := k |}]>
                        (forwarding s)) s))
      | _ => None
      end
  | fetchQueueLength_settled i result =>
      match progress s !! i with
      | Some seq =>
          let s' := set_progress (delete i (progress s)) s in
          match result with
          | inr queueLength =>
              Some (emit (logProgress_rest (totalSequence s) seq
                            queueLength) s')
          | inl _ => Some s'      (* [.catch(() => {})] *)
          end
      | None => None
      end
  | save_settled i rejected =>
      match saving s !! i with
      | Some _ =>
          let s' := set_saving (delete i (saving s)) s in
          match rejected with
          | None => Some s'
          | Some err =>
              Some (emit [sentry_report "Error storing watch progress"
                            [("err"%string, err)]] s')
          end
      | None => None
      end
  | info_tick update_seq =>
      Some (set_totalSequence update_seq s)
  end.

Fixpoint run (s : State) (evs : list Event) : option State :=
  match evs with
  | [] => Some s
  | ev :: evs' =>
      match step s ev with
      | Some s' => run s' evs'
      | None => None
      end
  end.

(** **** Reading a call log *)

(** The objects given to saveObject, in order. *)
Definition saveObjects (cs : list Call) : list QueueObject :=
  omap (fun c => match c with saveObject o => Some o | _ => None end) cs.

(** The delays of the timers armed, in order. *)
Definition waits (cs : list Call) : list Z :=
  omap (fun c => match c with setTimeout w => Some w | _ => None end) cs.

(** The [retry] argument of every call to [backoff], read off the line
    it logs on entry. *)
Definition backoff_retries (cs : list Call) : list Z :=
  omap (fun c =>
          match c with
          | log_info (str s :: num retry :: _) =>
              if String.eqb s "Retrying (" then Some retry else None
          | _ => None
          end) cs.

(** The errors passed to [log.err]. *)
Definition logged_errors (cs : list Call) : list Err :=
  omap (fun c => match c with log_err _ err => Some err | _ => None end)
    cs.

(** The calls to the error tracker. *)
Definition reports (cs : list Call) : list (Err * list (string * Err)) :=
  omap (fun c =>
          match c with
          | sentry_report err ctx => Some (err, ctx)
          | _ => None
          end) cs.

(** The sequence numbers given to [stateManager.save]. *)
Definition checkpoints (cs : list Call) : list Z :=
  omap (fun c =>
          match c with stateManager_save seq => Some seq | _ => None end)
    cs.

(** The calls to [changesReader.resume()]. *)
Definition resumes (cs : list Call) : list Call :=
  List.filter
    (fun c => match c with changesReader_resume => true | _ => false end)
    cs.

(** Does the call belong to the forwarding of a change (pause, the
    storeChange chain, resume), as opposed to progress logging,
    checkpointing and error events of the reader? *)
Definition forwarding_call (c : Call) : bool :=
  match c with
  | changesReader_pause | changesReader_resume => true
  | saveObject _ | log_err _ _ | setTimeout _ => true
  | log_info (str s :: _) => String.eqb s "Retrying ("
  | _ => false
  end.

(** Events that do not concern a storeChange chain. *)
Definition background (ev : Event) : bool :=
  match ev with
  | on_error _ | fetchQueueLength_settled _ _ | save_settled _ _
  | info_tick _ => true
  | on_change _ | saveObject_settled _ _ | timeout_fired _ => false
  end.

(** The forward that is alone in flight fails with each of [errs] in
    turn, is retried after each backoff, and then succeeds. *)
Definition failures (errs : list Err) : list Event :=
  flat_map (fun err => [saveObject_settled 0 (Some err); timeout_fired 0])
    errs.

Definition fails_then_succeeds (errs : list Err) : list Event :=
  failures errs ++ [saveObject_settled 0 None].

(** What a chain suspended in [storeChange(retry)] does while it fails
    with [errs]: per failure the error is logged, [backoff] logs and
    arms its timer, and saveObject is called again. *)
Fixpoint retry_calls (change : Change.t) (retry : Z) (errs : list Err)
  : list Call :=
  match errs with
  | [] => []
  | err :: errs' =>
      (storeChange_catch retry err).1
      ++ (storeChange change (retry + 1)).1
      ++ retry_calls change (retry + 1) errs'
  end.

(** The retry counters 1, 2, ..., n counted from [retry]. *)
Fixpoint counters (retry : Z) (n : nat) : list Z :=
  match n with
  | O => []
  | S n' => (retry + 1) :: counters (retry + 1) n'
  end.

(** Scanning a log with the reader's flag: is every saveObject made
    while the reader is paused? *)
Fixpoint forwards_while_paused (flag : bool) (cs : list Call) : bool :=
  match cs with
  | [] => true
  | changesReader_pause :: cs' => forwards_while_paused true cs'
  | changesReader_resume :: cs' => forwards_while_paused false cs'
  | saveObject _ :: cs' => flag && forwards_while_paused flag cs'
  | _ :: cs' => forwards_while_paused flag cs'
  end.

(** The reader's flag after a log. *)
Fixpoint flag_after (flag : bool) (cs : list Call) : bool :=
  match cs with
  | [] => flag
  | changesReader_pause :: cs' => flag_after true cs'
  | changesReader_resume :: cs' => flag_after false cs'
  | _ :: cs' => flag_after flag cs'
  end.

Definition foreground (ev : Event) : bool := negb (background ev).

(** Does the event settle a saveObject promise? *)
Definition settles_saveObject (ev : Event) : bool :=
  match ev with saveObject_settled _ _ => true | _ => false end.

(** The events still ahead of a chain suspended at [k] that fails with
    [errs] and, when [fin] is set, then succeeds. *)
Definition script (k : Suspended) (errs : list Err) (fin : bool)
  : list Event :=
  match k with
  | at_saveObject _ => []
  | at_backoff _ => [timeout_fired 0]
  end
  ++ failures errs ++ (if fin then [saveObject_settled 0 None] else []).

(** The forwarding calls made along [script]. *)
Definition script_calls (c : Change.t) (k : Suspended) (errs : list Err)
  (fin : bool) : list Call :=
  match k with
  | at_saveObject r => retry_calls c r errs
  | at_backoff r => (storeChange c r).1 ++ retry_calls c r errs
  end ++ (if fin then [changesReader_resume] else []).

Definition retry_of (k : Suspended) : Z :=
  match k with at_saveObject r | at_backoff r => r end.

(** Is a change being forwarded? *)
Definition in_flight (s : State) : bool :=
  match forwarding s with [] => false | _ :: _ => true end.

(** The invariant behind sequential processing. *)
Definition sequential (s : State) : Prop :=
  (length (forwarding s) <= 1)%nat
  /\ paused s = in_flight s
  /\ forwards_while_paused false (calls s) = true
  /\ flag_after false (calls s) = paused s.

End WithConfig.

(** Values for examples. *)
Definition example_config : Config :=
  {| retryBackoffPow := 2; retryBackoffMax := 30000 |}.

Definition example_change : Change.t :=
  Change.mk (Some "lodash") 42 ["7-b6e0f2"] false.

Definition example_run : list Event :=
  [on_change example_change;
   saveObject_settled 0 (Some "ETIMEDOUT");
   fetchQueueLength_settled 0 (inr 3);
   timeout_fired 0;
   save_settled 0 None;
   saveObject_settled 0 None].

(** The state the example run ends in. *)
Definition example_final : State :=
  Eval vm_compute in
    default listening (run example_config listening example_run).

(** A run in which the first write never settles, and where it ends. *)
Definition example_unsettled_run : list Event :=
  [on_change example_change; fetchQueueLength_settled 0 (inr 3);
   save_settled 0 None; info_tick 99].

Definition example_unsettled : State :=
  Eval vm_compute in
    default listening (run example_config listening example_unsettled_run).

(** *** Watch.stop *)

(** How a call (or the promise it returns, once awaited) ends. *)
Inductive Outcome : Type :=
| returns
| throws (err : Err).

(** An indexer as [stop()] sees it: it may lack a [stop] method
    ([?.()]); when it has one, the environment decides how it ends. *)
Record Indexer : Type := {
  stop_method : option Outcome
}.

(** The event emitter returned by [changesReader.start]. *)
Record EventEmitter : Type := {
  has_removeAllListeners : bool
}.

(** The fields of a [Watch] that [stop()] reads.  Each is [None] while
    it is [undefined], that is until [run()] assigned it. *)
Record t : Type := {
  changesReader : option EventEmitter;
  oneTimeIndexer : option Indexer;
  periodicDataIndexer : option Indexer;
  mainWatchIndexer : option Indexer
}.

(** A block of statements that may throw: the calls it made, and either
    the thrown error or the value. *)
Definition Try (A : Type) : Type := list Call * (Err + A).

Definition ret {A : Type} (a : A) : Try A := ([], inr a).

Definition bind {A B : Type} (m : Try A) (f : A -> Try B) : Try B :=
  match m with
  | (cs, inl err) => (cs, inl err)
  | (cs, inr a) => let '(cs', r) := f a in (cs ++ cs', r)
  end.

Notation "m ;> k" := (bind m (fun _ => k))
  (at level 100, k at level 200, right associativity).

(** Making the call [c], which ends as [o] says. *)
Definition call (c : Call) (o : Outcome) : Try unit :=
  ([c], match o with returns => inr tt | throws err => inl err end).

(** [try { body } catch (err) { handler }] where the handler does not
    throw. *)
Definition try_catch (body : Try unit) (handler : Err -> list Call)
  : list Call :=
  match body with
  | (cs, inr _) => cs
  | (cs, inl err) => cs ++ handler err
  end.

(** [await indexer?.stop?.()] *)
Definition stop_indexer (which : IndexerName) (indexer : option Indexer)
  : Try unit :=
  match indexer with
  | Some {| stop_method := Some o |} => call (indexer_stop which) o
  | _ => ret tt
  end.

(** [this.changesReader?.removeAllListeners?.()] *)
Definition remove_listeners (this : t) : list Call :=
  match changesReader this with
  | Some {| has_removeAllListeners := true |} => [removeAllListeners]
  | _ => []
  end.

(** [Watch.stop()].  [reader_stop] is how [npm.db.changesReader.stop()]
    ends. *)
Definition stop (reader_stop : Outcome) (this : t) : list Call :=
  [log_info [str "Stopping Watch..."]]
  ++ try_catch
       (call changesReader_stop reader_stop ;>
        stop_indexer OneTimeBackgroundIndexer (oneTimeIndexer this) ;>
        stop_indexer PeriodicBackgroundIndexer (periodicDataIndexer this) ;>
        stop_indexer MainWatchIndexer (mainWatchIndexer this))
       (fun err => [sentry_report err []])
  ++ remove_listeners this
  ++ [log_info [str "Stopped Watch gracefully"]].

(** The same, following the words of the specification: the guarded
    calls in their order, each with the way it ends ... *)
Definition guarded_calls (reader_stop : Outcome) (this : t)
  : list (Call * Outcome) :=
  (changesReader_stop, reader_stop)
  :: omap (fun p : IndexerName * option Indexer =>
             match p.2 with
             | Some {| stop_method := Some o |} =>
                 Some (indexer_stop p.1, o)
             | _ => None
             end)
       [(OneTimeBackgroundIndexer, oneTimeIndexer this);
        (PeriodicBackgroundIndexer, periodicDataIndexer this);
        (MainWatchIndexer, mainWatchIndexer this)].

(** ... are made one after the other up to and including the first that
    fails; that failure is reported and the calls after it are skipped. *)
Fixpoint until_first_failure (l : list (Call * Outcome)) : list Call :=
  match l with
  | [] => []
  | (c, returns) :: l' => c :: until_first_failure l'
  | (c, throws err) :: _ => [c; sentry_report err []]
  end.




End Watch.

(** ** formatPkg.js: the values it handles *)

Module FormatPkg.

(** Objects live in a heap and are handled through references, so that
    two properties holding the same object are seen as such: formatPkg
    builds documents in which that happens ([owner] may be the very
    object that is [lastPublisher]), and the escaping pass updates
    objects in place. *)
Definition addr : Type := nat.

Inductive value : Type :=
| undefined
| null
| boolean (b : bool)
| number (n : Z)
| text (s : string)
| ref (a : addr).

(** An object or an array: its own enumerable properties in enumeration
    order.  The keys of an array are its indices, written in decimal. *)
Record object : Type := {
  is_array : bool;
  props : list (string * value)
}.

Abbreviation heap := (gmap addr object).

(** [Object.keys(o)] *)
Definition keys (o : object) : list string := (props o).*1.

Fixpoint assoc_get (k : string) (l : list (string * value))
  : option value :=
  match l with
  | [] => None
  | (k', v) :: l' => if decide (k' = k) then Some v else assoc_get k l'
  end.

(** Assignment to a property: an existing key keeps its place, a new key
    goes last. *)
Fixpoint assoc_set (k : string) (x : value) (l : list (string * value))
  : list (string * value) :=
  match l with
  | [] => [(k, x)]
  | (k', v) :: l' =>
      if decide (k' = k) then (k', x) :: l'
      else (k', v) :: assoc_set k x l'
  end.

(** [node[key]]; reading a property of a primitive gives [undefined]
    (the code never reads [length] or an index of a string this way). *)
Definition get_prop (h : heap) (node : value) (k : string) : value :=
  match node with
  | ref a =>
      match h !! a with
      | Some o => default undefined (assoc_get k (props o))
      | None => undefined
      end
  | _ => undefined
  end.

(** [object[key] = x] for the object at [a]. *)
Definition set_prop (h : heap) (a : addr) (k : string) (x : value) : heap :=
  match h !! a with
  | Some o =>
      <[a := {| is_array := is_array o; props := assoc_set k x (props o) |}]> h
  | None => h
  end.

(** [node[key] = x] where [node] is a value. *)
Definition assign (h : heap) (node : value) (k : string) (x : value)
  : heap :=
  match node with
  | ref a => set_prop h a k x
  | _ => h
  end.

(** A new object. *)
Definition alloc (h : heap) (o : object) : heap * value :=
  let a := fresh (dom h) in (<[a := o]> h, ref a).

(** JavaScript truthiness. *)
Definition truthy (v : value) : bool :=
  match v with
  | undefined | null => false
  | boolean b => b
  | number n => negb (n =? 0)
  | text s => negb (String.eqb s "")
  | ref _ => true
  end.

(** *** The traverse package, as far as [forEach] goes *)

(** The context [this] of a callback of [forEach]: what [maybeEscape]
    reads of it. *)
Record TraverseContext : Type := {
  isLeaf : bool;
  key : option string;      (* [None] at the root *)
  isRoot : bool
}.

(** [state.isLeaf]: not an object, or an object without keys. *)
Definition leaf (h : heap) (node : value) : bool :=
  match node with
  | ref a =>
      match h !! a with
      | Some o => match keys o with [] => true | _ :: _ => false end
      | None => true
      end
  | _ => true
  end.

(** [this.update(x)]: the property of the parent that holds the node is
    overwritten; at the root there is nothing to overwrite. *)
Definition update (parents : list addr) (key : option string) (x : value)
  (h : heap) : heap :=
  match parents, key with
  | p :: _, Some k => set_prop h p k x
  | _, _ => h
  end.

(** [walker(node_)] of traverse's [walk], not immutable.  The callback
    [cb] gives the value it passes to [this.update], if it calls it.
    [parents] are the objects being descended into, innermost first; an
    object met again below itself is circular and is not descended into.
    [fuel] bounds the depth of the descent; [None] means that it ran
    out. *)
Fixpoint walker (cb : TraverseContext -> value -> option value) (fuel : nat)
  (parents : list addr) (key : option string) (node_ : value) (h : heap)
  : option (heap * value) :=
  let this := {| isLeaf := leaf h node_; key := key;
                 isRoot := match parents with [] => true | _ => false end |} in
  let '(h, node) :=
    match cb this node_ with
    | Some x => (update parents key x h, x)
    | None => (h, node_)
    end in
  match node with
  | ref a =>
      match h !! a with
      | Some o =>
          if decide (a ∈ parents) then Some (h, node)
          else
            match fuel with
            | O => None
            | S fuel' =>
                h' ← foldl
                       (fun acc k =>
                          h ← acc;
                          fst <$> walker cb fuel' (a :: parents) (Some k)
                                    (get_prop h (ref a) k) h)
                       (Some h) (keys o);
                Some (h', node)
            end
      | None => Some (h, node)
      end
  | _ => Some (h, node)
  end.

(** [traverse(root).forEach(cb)]: the walk, and its value is the root.
    No descent is deeper than the number of objects. *)
Definition forEach (cb : TraverseContext -> value -> option value) (h : heap)
  (root : value) : option (heap * value) :=
  walker cb (size h) [] None root h.

(** *** formatPkg *)

(** [maybeEscape], with [escape] the function of the escape-html
    package. *)
Definition maybeEscape (escape : string -> string) (this : TraverseContext)
  (node : value) : option value :=
  match node with
  | text s =>
      if isLeaf this then
        if decide (key this = Some "readme"%string) then Some (text s)
        else Some (text (escape s))
      else None
  | _ => None
  end.

(** The escape-html package: the five characters it replaces. *)
Definition escape_char (c : Ascii.ascii) : string :=
  if Ascii.eqb c "034" then "&quot;"
  else if Ascii.eqb c "&" then "&amp;"
  else if Ascii.eqb c "'" then "&#39;"
  else if Ascii.eqb c "<" then "&lt;"
  else if Ascii.eqb c ">" then "&gt;"
  else String c EmptyString.

Fixpoint escape_html (s : string) : string :=
  match s with
  | EmptyString => EmptyString
  | String c s' => escape_char c +:+ escape_html s'
  end.

(** What a statement may throw. *)
Inductive Exception : Type :=
| TypeError
| URIError
| Error (message : string).

(** How an evaluation ends: with a value, or with an exception thrown. *)
Inductive Result (A : Type) : Type :=
| ok (a : A)
| throw (e : Exception).

Arguments ok {A} a.
Arguments throw {A} e.

(** [node.key] for any [node]: reading a property of [null] or
    [undefined] throws a TypeError. *)
Definition read (h : heap) (node : value) (k : string) : Result value :=
  match node with
  | undefined | null => throw TypeError
  | _ => ok (get_prop h node k)
  end.

(** What [checkSize] returns. *)
Record SizeCheck : Type := {
  pkg_size : Z;
  diff : Z;
  isTooBig : bool
}.

Section WithLibraries.

(** The libraries and constants formatPkg.js imports. *)
Variable escape : string -> string.          (* escape-html *)
Variable sizeof : heap -> value -> Z.         (* object-sizeof *)
(** truncate-utf8-bytes, once it has checked that it was given a
    string. *)
Variable truncate_bytes : string -> Qcanon.Qc -> string.
Variable maxObjSize : Z.                      (* config.maxObjSize *)
(** The conversion of a value to a property key. *)
Variable toPropertyKey : heap -> value -> string.
(** formatPkg from its entry to the object literal [rawPkg] (lines
    15 to 108), which goes through the nice-package, hosted-git-info,
    gravatar-url and numeral packages: it throws, or returns [undefined]
    before building [rawPkg] ([ok None]), or builds [rawPkg]. *)
Variable rawPkg_of : heap -> value -> heap * Result (option value).

(** [truncate(string, byteLength)] of truncate-utf8-bytes, which starts
    with [if (typeof string !== "string") throw new Error("Input must be
    string")]. *)
Definition truncate (input : value) (byteLength : Qcanon.Qc)
  : Result string :=
  match input with
  | text s => ok (truncate_bytes s byteLength)
  | _ => throw (Error "Input must be string")
  end.

Definition checkSize (h : heap) (pkg : value) : SizeCheck :=
  let size := sizeof h pkg in
  let diff := size - maxObjSize in
  {| pkg_size := size; diff := diff; isTooBig := bool_decide (0 < diff) |}.

(** [{ ...pkg }] *)
Definition spread (h : heap) (pkg : value) : object :=
  match pkg with
  | ref a =>
      match h !! a with
      | Some o => {| is_array := false; props := props o |}
      | None => {| is_array := false; props := [] |}
      end
  | _ => {| is_array := false; props := [] |}
  end.

(** [truncatePackage], block by block.  The heap is given back also
    when a block throws. *)
Definition truncatePackage (h : heap) (pkg : value) : heap * Result value :=
  let '(h, smallerPkg) := alloc h (spread h pkg) in
  let '(h, block) :=
    let c := checkSize h smallerPkg in
    if isTooBig c then
      let postfix := " **TRUNCATED**"%string in
      match read h pkg "readme" with
      | throw e => (h, throw e)
      | ok readme =>
          (* sizeof is * 2 what truncate expects *)
          let maxReadmeLength :=
            Qcanon.Qcdiv
              (Qc_of_Z (sizeof h readme - diff c - sizeof h (text postfix)))
              (Qc_of_Z 2) in
          match truncate readme maxReadmeLength with
          | throw e => (h, throw e)
          | ok cut =>
              (assign h smallerPkg "readme" (text (cut +:+ postfix)), ok tt)
          end
      end
    else (h, ok tt) in
  match block with
  | throw e => (h, throw e)
  | ok _ =>
      let '(h, block) :=
        if isTooBig (checkSize h smallerPkg) then
          let h :=
            assign h smallerPkg "readme"
              (text "** TRUNCATED ** this package was too big, so non-essential information was removed") in
          match read h pkg "versions" with
          | throw e => (h, throw e)
          | ok pkg_versions =>
              (* [pkg] is an object or a primitive from here on *)
              let '(h, versions) :=
                if truthy pkg_versions && truthy (get_prop h pkg "version")
                then
                  let version :=
                    toPropertyKey h (get_prop h pkg "version") in
                  alloc h {| is_array := false;
                             props := [(version,
                                        get_prop h
                                          (get_prop h pkg "versions")
                                          version)] |}
                else (h, null) in
              let h := assign h smallerPkg "versions" versions in
              let '(h, tags) :=
                if truthy (get_prop h pkg "tags")
                   && truthy (get_prop h (get_prop h pkg "tags") "latest")
                then
                  alloc h {| is_array := false;
                             props := [("latest"%string,
                                        get_prop h (get_prop h pkg "tags")
                                          "latest")] |}
                else (h, null) in
              let h := assign h smallerPkg "tags" tags in
              let '(h, owners) :=
                alloc h {| is_array := true;
                           props := [("0"%string,
                                      get_prop h smallerPkg "owner")] |} in
              (assign h smallerPkg "owners" owners, ok tt)
          end
        else (h, ok tt) in
      match block with
      | throw e => (h, throw e)
      | ok _ =>
          let '(h, smallerPkg) :=
            if isTooBig (checkSize h smallerPkg) then
              alloc h {| is_array := false;
                         props := [("name"%string,
                                    get_prop h smallerPkg "name");
                                   ("readme"%string,
                                    get_prop h smallerPkg "readme")] |}
            else (h, smallerPkg) in
          if isTooBig (checkSize h smallerPkg) then (h, ok null)
          else (h, ok smallerPkg)
      end
  end.

(** [formatPkg(pkg)].  The outer [option] is the fuel of the walk. *)
Definition formatPkg (h : heap) (pkg : value)
  : option (heap * Result value) :=
  match rawPkg_of h pkg with
  | (h, throw e) => Some (h, throw e)
  | (h, ok None) => Some (h, ok undefined)
  | (h, ok (Some rawPkg)) =>
      match truncatePackage h rawPkg with
      | (h, throw e) => Some (h, throw e)
      | (h, ok truncated) =>
          match forEach (maybeEscape escape) h truncated with
          | Some (h, document) => Some (h, ok document)
          | None => None
          end
      end
  end.

End WithLibraries.

(** *** Reading a document *)

(** [a] is an object of the document [root]: the root itself, or the
    value of a property of an object of the document. *)
Inductive reachable (h : heap) : value -> addr -> Prop :=
| reachable_root a : reachable h (ref a) a
| reachable_prop a o k v b :
    h !! a = Some o -> assoc_get k (props o) = Some v ->
    reachable h v b -> reachable h (ref a) b.

(** The same, along a path that does not go through an object of [P]
    and through no object twice; [k] is a key of the object reached. *)
Inductive reaches (h : heap) : list addr -> value -> addr -> string -> Prop :=
| reaches_here P a o k :
    a ∉ P -> h !! a = Some o -> k ∈ keys o -> reaches h P (ref a) a k
| reaches_below P a o k v b k' :
    a ∉ P -> h !! a = Some o -> assoc_get k (props o) = Some v ->
    reaches h (a :: P) v b k' -> reaches h P (ref a) b k'.

(** What the escaping pass may do to the value of a property [k]: a
    string under another key than [readme] is escaped some number of
    times, anything else is left as it is. *)
Definition escaped_from (escape : string -> string) (k : string)
  (v v' : option value) : Prop :=
  match v with
  | Some (text s) =>
      if decide (k = "readme"%string) then v' = v
      else exists n : nat, v' = Some (text (Nat.iter n escape s))
  | _ => v' = v
  end.

(** The heap [h'] is [h] after some escaping. *)
Definition escaping (escape : string -> string) (h h' : heap) : Prop :=
  forall a,
    match h !! a, h' !! a with
    | Some o, Some o' =>
        is_array o' = is_array o /\ keys o' = keys o
        /\ forall k, escaped_from escape k (assoc_get k (props o))
                       (assoc_get k (props o'))
    | None, None => True
    | _, _ => False
    end.

(** The property [k] of the object at [a], if it held a string under
    another key than [readme] in [h], holds in [h'] that string escaped
    at least once. *)
Definition escaped_at (escape : string -> string) (h h' : heap)
  (a : addr) (k : string) : Prop :=
  forall o s,
    h !! a = Some o -> assoc_get k (props o) = Some (text s) ->
    k <> "readme"%string ->
    exists o' n,
      h' !! a = Some o'
      /\ assoc_get k (props o') = Some (text (Nat.iter (S n) escape s)).

(** The node visited is the value of the property it is visited
    under. *)
Definition in_place (P : list addr) (key : option string) (node : value)
  (h : heap) : Prop :=
  forall p P' k,
    P = p :: P' -> key = Some k ->
    exists o, h !! p = Some o /\ assoc_get k (props o) = Some node.

(** What one visit of the escaping pass achieves, from [h] to [h']. *)
Definition visit_ok (escape : string -> string) (P : list addr)
  (key : option string) (node : value) (h h' : heap) (v' : value) : Prop :=
  escaping escape h h'
  /\ (forall s p P' k,
        node = text s -> P = p :: P' -> key = Some k ->
        escaped_at escape h h' p k)
  /\ (forall b kb, reaches h P node b kb -> escaped_at escape h h' b kb)
  /\ (forall a, node = ref a -> v' = node).

(** A string that escape-html leaves no work in: none of the characters
    it replaces is left, except the ampersand of an entity it writes. *)
Fixpoint html_escaped (s : string) : bool :=
  match s with
  | EmptyString => true
  | String c s' =>
      if Ascii.eqb c "034" || Ascii.eqb c "'" || Ascii.eqb c "<"
         || Ascii.eqb c ">" then false
      else if Ascii.eqb c "&" then
        (String.prefix "quot;" s' || String.prefix "amp;" s'
         || String.prefix "#39;" s' || String.prefix "lt;" s'
         || String.prefix "gt;" s')
        && html_escaped s'
      else html_escaped s'
  end.

(** *** An example: [owner] is the object that is [lastPublisher] *)

Definition example_heap : heap :=
  {[ 0%nat := {| is_array := false;
                 props := [("name"%string, text "a<b");
                           ("readme"%string, text "<h1>T&C</h1>");
                           ("owner"%string, ref 1%nat);
                           ("lastPublisher"%string, ref 1%nat)] |};
     1%nat := {| is_array := false;
                 props := [("name"%string, text "R&D");
                           ("link"%string,
                            text "https://www.npmjs.com/~R%26D")] |} ]}.

(** formatPkg with libraries that let the example through: nothing is
    too big, and the package given is taken as [rawPkg]. *)
Definition example_formatPkg
  : heap -> value -> option (heap * Result value) :=
  formatPkg escape_html (fun _ _ => 0) (fun _ _ => ""%string) 1
    (fun _ _ => ""%string) (fun h pkg => (h, ok (Some pkg))).

Definition example_document : heap * Result value :=
  default (∅, ok undefined) (example_formatPkg example_heap (ref 0%nat)).

End FormatPkg.

(** ** More ways to read a run of the consumer *)

Module WatchLog.

Import Watch.

(** The report each event leads to, if any: an error of the reader is
    reported as it is, a rejected checkpoint save as
    ['Error storing watch progress'] with the rejection as context. *)
Definition report_of (ev : Event) : option (Err * list (string * Err)) :=
  match ev with
  | on_error err => Some (err, [])
  | save_settled _ (Some err) =>
      Some ("Error storing watch progress"%string, [("err"%string, err)])
  | _ => None
  end.

(** The sequence numbers of the changes delivered with an id. *)
Definition processed (evs : list Event) : list Z :=
  omap (fun ev =>
          match ev with
          | on_change c =>
              if falsy (Change.id c) then None else Some (Change.seq c)
          | _ => None
          end) evs.

(** The values npm.db.info() gave to the interval callback. *)
Definition ticks (evs : list Event) : list Z :=
  omap (fun ev => match ev with info_tick z => Some z | _ => None end) evs.

(** The calls to [changesReader.pause()]. *)
Definition pauses (cs : list Call) : list Call :=
  List.filter
    (fun c => match c with changesReader_pause => true | _ => false end) cs.

(** The calls to [fetchQueueLength]. *)
Definition queue_length_fetches (cs : list Call) : list Call :=
  List.filter
    (fun c => match c with fetchQueueLength => true | _ => false end) cs.

(** The indexers [stop()] was called on, in order. *)
Definition stopped_indexers (cs : list Call) : list IndexerName :=
  omap (fun c => match c with indexer_stop which => Some which | _ => None end)
    cs.

(** The first of the guarded calls that throws, and what it throws. *)
Fixpoint first_failure (l : list (Call * Outcome)) : option Err :=
  match l with
  | [] => None
  | (_, returns) :: l' => first_failure l'
  | (_, throws err) :: _ => Some err
  end.

(** The guarded calls up to and including the first that throws. *)
Fixpoint attempted (l : list (Call * Outcome)) : list Call :=
  match l with
  | [] => []
  | (c, returns) :: l' => c :: attempted l'
  | (c, throws _) :: _ => [c]
  end.

End WatchLog.

(** ** formatPkg.js: the blocks of truncatePackage *)

Module Truncate.

Import FormatPkg.

(** The objects at the addresses of [D] are the same in [h'] as in [h]. *)
Definition unchanged_on (D : gset addr) (h h' : heap) : Prop :=
  forall a, a ∈ D -> h' !! a = h !! a.

Section WithLibraries.

Variable sizeof : heap -> value -> Z.
Variable truncate_bytes : string -> Qcanon.Qc -> string.
Variable maxObjSize : Z.
Variable toPropertyKey : heap -> value -> string.

(** First block: the readme is cut to what is over the limit. *)
Definition cut_readme (h : heap) (pkg smallerPkg : value)
  : heap * Result unit :=
  let c := checkSize sizeof maxObjSize h smallerPkg in
  if isTooBig c then
    let postfix := " **TRUNCATED**"%string in
    match read h pkg "readme" with
    | throw e => (h, throw e)
    | ok readme =>
        let maxReadmeLength :=
          Qcanon.Qcdiv
            (Qc_of_Z (sizeof h readme - diff c - sizeof h (text postfix)))
            (Qc_of_Z 2) in
        match truncate truncate_bytes readme maxReadmeLength with
        | throw e => (h, throw e)
        | ok cut =>
            (assign h smallerPkg "readme" (text (cut +:+ postfix)), ok tt)
        end
    end
  else (h, ok tt).

(** Second block: the readme is dropped, and only the current version,
    the latest tag and the owner are kept. *)
Definition drop_non_essential (h : heap) (pkg smallerPkg : value)
  : heap * Result unit :=
  if isTooBig (checkSize sizeof maxObjSize h smallerPkg) then
    let h :=
      assign h smallerPkg "readme"
        (text "** TRUNCATED ** this package was too big, so non-essential information was removed") in
    match read h pkg "versions" with
    | throw e => (h, throw e)
    | ok pkg_versions =>
        let '(h, versions) :=
          if truthy pkg_versions && truthy (get_prop h pkg "version")
          then
            let version := toPropertyKey h (get_prop h pkg "version") in
            alloc h {| is_array := false;
                       props := [(version,
                                  get_prop h (get_prop h pkg "versions")
                                    version)] |}
          else (h, null) in
        let h := assign h smallerPkg "versions" versions in
        let '(h, tags) :=
          if truthy (get_prop h pkg "tags")
             && truthy (get_prop h (get_prop h pkg "tags") "latest")
          then
            alloc h {| is_array := false;
                       props := [("latest"%string,
                                  get_prop h (get_prop h pkg "tags")
                                    "latest")] |}
          else (h, null) in
        let h := assign h smallerPkg "tags" tags in
        let '(h, owners) :=
          alloc h {| is_array := true;
                     props := [("0"%string,
                                get_prop h smallerPkg "owner")] |} in
        (assign h smallerPkg "owners" owners, ok tt)
    end
  else (h, ok tt).

(** Third block: only the name and the readme are kept. *)
Definition keep_name_and_readme (h : heap) (smallerPkg : value)
  : heap * value :=
  if isTooBig (checkSize sizeof maxObjSize h smallerPkg) then
    alloc h {| is_array := false;
               props := [("name"%string, get_prop h smallerPkg "name");
                         ("readme"%string,
                          get_prop h smallerPkg "readme")] |}
  else (h, smallerPkg).

(** Fourth block: still too big, no document. *)
Definition give_up_if_too_big (h : heap) (smallerPkg : value)
  : heap * Result value :=
  if isTooBig (checkSize sizeof maxObjSize h smallerPkg) then (h, ok null)
  else (h, ok smallerPkg).

(** Is the package over the limit when [truncatePackage] starts, that
    is, is its copy? *)
Definition over_limit (h : heap) (pkg : value) : bool :=
  let '(h, smallerPkg) := alloc h (spread h pkg) in
  isTooBig (checkSize sizeof maxObjSize h smallerPkg).

End WithLibraries.

End Truncate.

(** ** formatPkg.js: the helpers that read the package *)

Module Helpers.

Import FormatPkg.

(** [typeof v]; there are no functions among the values. *)
Definition typeof (v : value) : string :=
  match v with
  | undefined => "undefined"
  | null => "object"
  | boolean _ => "boolean"
  | number _ => "number"
  | text _ => "string"
  | ref _ => "object"
  end.

(** [o.k] for an object at hand. *)
Definition field (o : object) (k : string) : value :=
  default undefined (assoc_get k (props o)).

(** [Array.isArray(v)] *)
Definition isArray (h : heap) (v : value) : bool :=
  match v with
  | ref a => match h !! a with Some o => is_array o | None => false end
  | _ => false
  end.

(** The elements of an array, in order. *)
Definition elements (h : heap) (v : value) : list value :=
  match v with
  | ref a => match h !! a with Some o => (props o).*2 | None => [] end
  | _ => []
  end.

(** [v === s] for a string literal [s]. *)
Definition is_string (v : value) (s : string) : bool :=
  match v with
  | text t => String.eqb t s
  | _ => false
  end.

(** [s.endsWith(suffix)] *)
Fixpoint endsWith (s suffix : string) : bool :=
  if String.eqb s suffix then true
  else
    match s with
    | EmptyString => false
    | String _ s' => endsWith s' suffix
    end.

(** [s.replace(/js$/, 'd.ts')] *)
Fixpoint replace_final_js (s : string) : string :=
  if String.eqb s "js" then "d.ts"
  else
    match s with
    | EmptyString => EmptyString
    | String c s' => String c (replace_final_js s')
    end.

(** [array.filter((main) => typeof main === 'string')] *)
Definition strings (vs : list value) : list string :=
  omap (fun v => match v with text s => Some s | _ => None end) vs.

(** [getMains(pkg)] *)
Definition getMains (h : heap) (pkg : object) : list string :=
  let main := field pkg "main" in
  if isArray h main then strings (elements h main)
  else
    match main with
    | text s => [s]
    | undefined => ["index.js"%string]
    | _ => []
    end.

(** [getModuleTypes(pkg)]; [push] appends. *)
Definition getModuleTypes (h : heap) (pkg : object) : list string :=
  let mains := getMains h pkg in
  let moduleTypes :=
    foldl
      (fun moduleTypes main =>
         let moduleTypes :=
           if String.eqb (typeof (field pkg "module")) "string"
              || is_string (field pkg "type") "module"
              || endsWith main ".mjs"
           then moduleTypes ++ ["esm"%string]
           else moduleTypes in
         if is_string (field pkg "type") "commonjs" || endsWith main ".cjs"
         then moduleTypes ++ ["cjs"%string]
         else moduleTypes)
      [] mains in
  match moduleTypes with
  | [] => ["unknown"%string]
  | _ :: _ => moduleTypes
  end.

(** What [getTypes] returns: [{ ts: 'included' }],
    [{ ts: { possible: true, dtsMain } }] or [{ ts: false }]. *)
Inductive Types : Type :=
| ts_included
| ts_possible (dtsMain : string)
| ts_false.

(** [getTypes(pkg)] *)
Definition getTypes (h : heap) (pkg : object) : Types :=
  if truthy (field pkg "types") then ts_included
  else if truthy (field pkg "typings") then ts_included
  else
    match getMains h pkg with
    | main :: _ =>
        if endsWith main ".js" then ts_possible (replace_final_js main)
        else ts_false
    | [] => ts_false
    end.

(** [getLicense(cleaned)] *)
Definition getLicense (h : heap) (cleaned : object) : value :=
  let license := field cleaned "license" in
  if truthy license then
    if String.eqb (typeof license) "object"
       && String.eqb (typeof (get_prop h license "type")) "string"
    then get_prop h license "type"
    else if String.eqb (typeof license) "string" then license
    else null
  else null.

(** The character class of the two regular expressions of
    getAlternativeNames. *)
Definition separator (c : Ascii.ascii) : bool :=
  Ascii.eqb c "-" || Ascii.eqb c "/" || Ascii.eqb c "@" || Ascii.eqb c "_"
  || Ascii.eqb c ".".

(** Replacing every run of separators by nothing. *)
Fixpoint concatenate (s : string) : string :=
  match s with
  | EmptyString => EmptyString
  | String c s' =>
      if separator c then concatenate s' else String c (concatenate s')
  end.

(** Replacing every run of separators by one space; [in_run] tells that
    the character before was a separator. *)
Fixpoint split (in_run : bool) (s : string) : string :=
  match s with
  | EmptyString => EmptyString
  | String c s' =>
      if separator c then
        if in_run then split true s' else String " " (split true s')
      else String c (split false s')
  end.

(** [set.add(x)] on a Set kept in insertion order. *)
Definition add (x : string) (set : list string) : list string :=
  if decide (x ∈ set) then set else set ++ [x].

(** [getAlternativeNames(name)].  [/\.?js$/] matches the names that end in
    [js]. *)
Definition getAlternativeNames (name : string) : list string :=
  let alternativeNames := [] in
  let concatenatedName := concatenate name in
  let alternativeNames := add concatenatedName alternativeNames in
  let splitName := split false name in
  let alternativeNames := add splitName alternativeNames in
  let isDotJs := endsWith name ".js" in
  let isJsSuffix := endsWith name "js" in
  let alternativeNames :=
    if isDotJs then
      add (substring 0 (String.length name - 3) name) alternativeNames
    else if isJsSuffix then
      add (substring 0 (String.length name - 2) name) alternativeNames
    else
      add (name +:+ "js") (add (name +:+ ".js") alternativeNames) in
  add name alternativeNames.

(** The characters of a string as the entries of the string seen as an
    object: the index in decimal, and the character. *)
Fixpoint string_entries (i : nat) (s : string) : list (string * value) :=
  match s with
  | EmptyString => []
  | String c s' =>
      (pretty i, text (String c EmptyString)) :: string_entries (S i) s'
  end.

(** [Object.entries(v)] for a value that is not [null] or [undefined]. *)
Definition entries (h : heap) (v : value) : list (string * value) :=
  match v with
  | ref a => match h !! a with Some o => props o | None => [] end
  | text s => string_entries 0 s
  | _ => []
  end.

(** [Object.keys(v)], which throws for [null] and [undefined]: [None]. *)
Definition object_keys (h : heap) (v : value) : option (list string) :=
  match v with
  | undefined | null => None
  | _ => Some (entries h v).*1
  end.

(** [Object.fromEntries(l)], as the properties of the new object. *)
Definition fromEntries (l : list (string * value)) : list (string * value) :=
  foldl (fun o kv => assoc_set kv.1 kv.2 o) [] l.

(** [getVersions(cleaned, rawPkg)]: the properties of the object
    returned, or [None] when [Object.keys] throws. *)
Definition getVersions (h : heap) (cleaned rawPkg : object)
  : option (list (string * value)) :=
  if truthy (field cleaned "other")
     && truthy (get_prop h (field cleaned "other") "time")
  then
    realVersions ← object_keys h (field rawPkg "versions");
    Some (fromEntries
            (List.filter
               (fun kv : string * value =>
                  bool_decide (kv.1 ∈ realVersions))
               (entries h (get_prop h (field cleaned "other") "time"))))
  else Some [].

(** [s.indexOf('@') === -1] *)
Fixpoint no_at_sign (s : string) : bool :=
  match s with
  | EmptyString => true
  | String c s' => if Ascii.eqb c "@" then false else no_at_sign s'
  end.

Section WithLibraries.

Variable gravatarUrl : string -> string.             (* gravatar-url *)
(** [encodeURIComponent]; [None] when it throws a URIError, as it does
    for a string with a lone surrogate. *)
Variable encodeURIComponent : heap -> value -> option string.

(** [getGravatar(obj)]; reading [obj.email] throws when [obj] is [null]
    or [undefined]. *)
Definition getGravatar (h : heap) (obj : value) : Result string :=
  match read h obj "email" with
  | throw e => throw e
  | ok (text email) =>
      if negb (truthy (text email)) || no_at_sign email
      then ok "https://www.gravatar.com/avatar/"%string
      else ok (gravatarUrl email)
  | ok _ => ok "https://www.gravatar.com/avatar/"%string
  end.

(** [formatUser(user)], as the properties of the object returned.  The
    spread comes first, then [avatar], then [link]. *)
Definition formatUser (h : heap) (user : value)
  : Result (list (string * value)) :=
  let spread := entries h user in
  match getGravatar h user with
  | throw e => throw e
  | ok avatar =>
      match read h user "name" with
      | throw e => throw e
      | ok name =>
          match encodeURIComponent h name with
          | None => throw URIError
          | Some encoded =>
              ok (assoc_set "link"
                    (text ("https://www.npmjs.com/~" +:+ encoded))
                    (assoc_set "avatar" (text avatar) spread))
          end
      end
  end.

(** [getAuthor(cleaned)]; [ok None] is [null]. *)
Definition getAuthor (h : heap) (cleaned : object)
  : Result (option (list (string * value))) :=
  let author := field cleaned "author" in
  if truthy author && String.eqb (typeof author) "object" then
    match formatUser h author with
    | ok user => ok (Some user)
    | throw e => throw e
    end
  else
    let owners := field cleaned "owners" in
    if isArray h owners
       && String.eqb (typeof (get_prop h owners "0")) "object"
    then
      match formatUser h (get_prop h owners "0") with
      | ok user => ok (Some user)
      | throw e => throw e
      end
    else ok None.

End WithLibraries.

(** *** Examples *)

(** A package published once: [time] has the two dates the registry adds
    besides the one of the version. *)
Definition example_registry : heap :=
  {[ 1%nat := {| is_array := false;
                 props := [("time"%string, ref 2%nat)] |};
     2%nat := {| is_array := false;
                 props := [("created"%string, text "2011-01-01");
                           ("1.0.0"%string, text "2011-01-02");
                           ("modified"%string, text "2012-01-01")] |};
     3%nat := {| is_array := false;
                 props := [("1.0.0"%string, ref 4%nat)] |};
     4%nat := {| is_array := false; props := [] |};
     5%nat := {| is_array := true; props := [("0"%string, ref 6%nat)] |};
     6%nat := {| is_array := false;
                 props := [("name"%string, text "jane");
                           ("email"%string, text "jane@example.org");
                           ("link"%string, text "mine")] |} ]}.

Definition example_cleaned : object :=
  {| is_array := false;
     props := [("other"%string, ref 1%nat); ("owners"%string, ref 5%nat)] |}.

Definition example_rawPkg : object :=
  {| is_array := false; props := [("versions"%string, ref 3%nat)] |}.

End Helpers.

(** * The properties *)

Import Watch.
Import FormatPkg.
Section WatchFacts.
Variable config : Config.

Lemma background_step s ev s' :
  background ev = true -> step config s ev = Some s' ->
  paused s' = paused s /\ forwarding s' = forwarding s
  /\ exists cs, calls s' = calls s ++ cs
                /\ List.filter forwarding_call cs = []
                /\ checkpoints cs = [].
Proof.
  destruct ev as [c|err|i r|i|i r|i r|z]; simpl; try discriminate; intros _ H.
  - inversion H; subst; simpl. repeat split. eexists; repeat split.
  - destruct (progress s !! i) as [sq|]; [|discriminate].
    destruct r as [e|q]; inversion H; subst; simpl; repeat split.
    + exists []. rewrite app_nil_r. repeat split.
    + eexists; repeat split.
  - destruct (saving s !! i) as [sq|]; [|discriminate].
    destruct r as [e|]; inversion H; subst; simpl; repeat split.
    + eexists; repeat split.
    + exists []. rewrite app_nil_r. repeat split.
  - inversion H; subst; simpl; repeat split.
    exists []. rewrite app_nil_r. repeat split.
Qed.

Lemma background_run evs : forall s s',
  List.filter foreground evs = [] -> run config s evs = Some s' ->
  paused s' = paused s /\ forwarding s' = forwarding s
  /\ exists cs, calls s' = calls s ++ cs
                /\ List.filter forwarding_call cs = []
                /\ checkpoints cs = [].
Proof.
  induction evs as [|ev evs IH]; intros s s' Hs Hr; simpl in Hr.
  - inversion Hr; subst. repeat split. exists []. by rewrite app_nil_r.
  - destruct (step config s ev) as [s1|] eqn:Hst; [|discriminate].
    simpl in Hs. unfold foreground at 1 in Hs.
    destruct (background ev) eqn:Hb; [|discriminate]. simpl in Hs.
    destruct (background_step _ _ _ Hb Hst) as (Hp & Hfw & cs0 & Hc0 & Hf0 & Hk0).
    destruct (IH _ _ Hs Hr) as (Hp' & Hfw' & cs & Hc & Hf1 & Hk1).
    rewrite Hp', Hfw', Hp, Hfw. repeat split.
    exists (cs0 ++ cs). rewrite Hc, Hc0, <- app_assoc, List.filter_app, Hf0, Hf1.
    unfold checkpoints in *. by rewrite omap_app, Hk0, Hk1.
Qed.

Lemma forwarding_call_retry_calls c r errs :
  List.filter forwarding_call (retry_calls config c r errs)
  = retry_calls config c r errs.
Proof.
  revert r; induction errs as [|e errs IH]; intros r; simpl; [done|].
  by rewrite IH.
Qed.

Lemma chain_run evs : forall s c k errs fin s',
  forwarding s = [{| fwd_change := c; fwd_at := k |}] ->
  List.filter foreground evs = script k errs fin ->
  run config s evs = Some s' ->
  exists cs, calls s' = calls s ++ cs
    /\ List.filter forwarding_call cs = script_calls config c k errs fin
    /\ checkpoints cs = []
    /\ forwarding s'
       = (if fin then []
          else [{| fwd_change := c;
                   fwd_at := at_saveObject
                               (retry_of k + Z.of_nat (length errs)) |}])
    /\ paused s' = (if fin then false else paused s).
Proof.
  induction evs as [|ev evs IH]; intros s c k errs fin s' Hf Hs Hr.
  - simpl in Hs, Hr. inversion Hr; subst s'.
    unfold script in Hs.
    destruct k as [r|r]; [|discriminate].
    destruct errs as [|e errs]; [|discriminate].
    destruct fin; [discriminate|].
    exists []. rewrite app_nil_r. simpl. rewrite Z.add_0_r. by rewrite Hf.
  - simpl in Hr. destruct (step config s ev) as [s1|] eqn:Hst; [|discriminate].
    simpl in Hs. unfold foreground at 1 in Hs.
    destruct (background ev) eqn:Hb; simpl in Hs.
    + destruct (background_step _ _ _ Hb Hst) as (Hp & Hfw & cs0 & Hc0 & Hf0 & Hk0).
      rewrite <- Hfw in Hf.
      destruct (IH s1 c k errs fin s' Hf Hs Hr) as (cs & Hc & Hfc & Hck & Hfin & Hpa).
      exists (cs0 ++ cs). rewrite Hc, Hc0, <- app_assoc.
      rewrite List.filter_app, Hf0. unfold checkpoints in *.
      rewrite omap_app, Hk0, Hck, Hfin, Hpa, Hp. done.
    + unfold script in Hs. destruct k as [r|r]; simpl in Hs.
      * destruct errs as [|e errs]; simpl in Hs.
        -- destruct fin; [|discriminate].
           inversion Hs as [[Hev Hrest]]. subst ev.
           simpl in Hst. rewrite Hf in Hst. simpl in Hst.
           inversion Hst; subst s1. clear Hst.
           destruct (background_run _ _ _ Hrest Hr)
             as (Hp & Hfw & cs & Hc & Hf1 & Hk1).
           simpl in Hp, Hfw, Hc. exists (changesReader_resume :: cs).
           rewrite Hc, <- app_assoc. simpl. rewrite Hf1.
           unfold checkpoints in *. simpl. rewrite Hk1. done.
        -- inversion Hs as [[Hev Hrest]]. subst ev.
           simpl in Hst. rewrite Hf in Hst. simpl in Hst.
           inversion Hst; subst s1. clear Hst.
           match type of Hr with run _ ?s1 _ = _ =>
             destruct (IH s1 c (at_backoff (r + 1)) errs fin s' eq_refl Hrest Hr)
               as (cs & Hc & Hfc & Hck & Hfin & Hpa)
           end.
           simpl in Hc. eexists. split; [rewrite Hc, <- app_assoc; reflexivity|].
           rewrite List.filter_app, Hfc. split; [|split;[|split]].
           ++ unfold script_calls. simpl. reflexivity.
           ++ unfold checkpoints in *. rewrite omap_app, Hck. reflexivity.
           ++ rewrite Hfin. simpl. destruct fin; [done|].
              do 3 f_equal. lia.
           ++ rewrite Hpa. done.
      * inversion Hs as [[Hev Hrest]]. subst ev.
        simpl in Hst. rewrite Hf in Hst. simpl in Hst.
        inversion Hst; subst s1. clear Hst.
        match type of Hr with run _ ?s1 _ = _ =>
          destruct (IH s1 c (at_saveObject r) errs fin s' eq_refl Hrest Hr)
            as (cs & Hc & Hfc & Hck & Hfin & Hpa)
        end.
        simpl in Hc. eexists. split; [rewrite Hc, <- app_assoc; reflexivity|].
        rewrite List.filter_app, Hfc. split; [|split;[|split]].
        ++ unfold script_calls. simpl. reflexivity.
        ++ unfold checkpoints in *. rewrite omap_app, Hck. reflexivity.
        ++ rewrite Hfin. done.
        ++ rewrite Hpa. done.
Qed.

(** Projections of a log only see forwarding calls. *)
Lemma omap_forwarding_calls {B} (f : Call -> option B) cs :
  (forall c, forwarding_call c = false -> f c = None) ->
  omap f (List.filter forwarding_call cs) = omap f cs.
Proof.
  intros Hf. induction cs as [|c cs IH]; [done|].
  change (List.filter forwarding_call (c :: cs))
    with (if forwarding_call c then c :: List.filter forwarding_call cs
          else List.filter forwarding_call cs).
  destruct (forwarding_call c) eqn:Hc.
  - change (omap f (c :: cs)) with (omap f ([c] ++ cs)).
    change (omap f (c :: List.filter forwarding_call cs))
      with (omap f ([c] ++ List.filter forwarding_call cs)).
    by rewrite !omap_app, IH.
  - change (omap f (c :: cs)) with (omap f ([c] ++ cs)).
    rewrite omap_app, IH. simpl. by rewrite (Hf c Hc).
Qed.

Lemma saveObjects_forwarding cs :
  saveObjects (List.filter forwarding_call cs) = saveObjects cs.
Proof. apply omap_forwarding_calls. by intros []. Qed.

Lemma waits_forwarding cs :
  waits (List.filter forwarding_call cs) = waits cs.
Proof. apply omap_forwarding_calls. by intros []. Qed.

Lemma logged_errors_forwarding cs :
  logged_errors (List.filter forwarding_call cs) = logged_errors cs.
Proof. apply omap_forwarding_calls. by intros []. Qed.

Lemma backoff_retries_forwarding cs :
  backoff_retries (List.filter forwarding_call cs) = backoff_retries cs.
Proof.
  apply omap_forwarding_calls. intros [[|[] args]| | | | | | | | | | | |]; simpl; try done.
  intros ->. by destruct args as [|[]].
Qed.

Lemma saveObjects_retry_calls c r errs :
  saveObjects (retry_calls config c r errs)
  = replicate (length errs) (queueObject c).
Proof.
  revert r. induction errs as [|e errs IH]; intros r; simpl; [done|].
  f_equal. apply IH.
Qed.

Lemma waits_retry_calls c r errs :
  waits (retry_calls config c r errs)
  = (fun a => Wait.bo a (retryBackoffPow config) (retryBackoffMax config))
      <$> counters r (length errs).
Proof.
  revert r. induction errs as [|e errs IH]; intros r; simpl; [done|].
  f_equal. apply IH.
Qed.

Lemma backoff_retries_retry_calls c r errs :
  backoff_retries (retry_calls config c r errs) = counters r (length errs).
Proof.
  revert r. induction errs as [|e errs IH]; intros r; simpl; [done|].
  f_equal. apply IH.
Qed.

Lemma logged_errors_retry_calls c r errs :
  logged_errors (retry_calls config c r errs) = errs.
Proof.
  revert r. induction errs as [|e errs IH]; intros r; simpl; [done|].
  f_equal. apply IH.
Qed.

Lemma saveObjects_app cs cs' :
  saveObjects (cs ++ cs') = saveObjects cs ++ saveObjects cs'.
Proof. apply omap_app. Qed.

Lemma waits_app cs cs' : waits (cs ++ cs') = waits cs ++ waits cs'.
Proof. apply omap_app. Qed.

Lemma backoff_retries_app cs cs' :
  backoff_retries (cs ++ cs') = backoff_retries cs ++ backoff_retries cs'.
Proof. apply omap_app. Qed.

Lemma logged_errors_app cs cs' :
  logged_errors (cs ++ cs') = logged_errors cs ++ logged_errors cs'.
Proof. apply omap_app. Qed.

Lemma checkpoints_app cs cs' :
  checkpoints (cs ++ cs') = checkpoints cs ++ checkpoints cs'.
Proof. apply omap_app. Qed.

Lemma resumes_retry_calls c r errs :
  resumes (retry_calls config c r errs) = [].
Proof.
  revert r. induction errs as [|e errs IH]; intros r; [done|]. apply IH.
Qed.

Lemma resumes_forwarding cs :
  resumes (List.filter forwarding_call cs) = resumes cs.
Proof.
  unfold resumes. induction cs as [|x l IH]; [done|]. simpl.
  destruct x; simpl; try exact IH.
  - destruct args as [|[] args]; simpl; try exact IH.
    destruct (String.eqb s "Retrying ("); simpl; exact IH.
  - by rewrite IH.
Qed.

(** The listener on a change with an id, then whatever the chain of
    that change goes through. *)
Lemma change_run c s errs fin evs s' :
  falsy (Change.id c) = false ->
  paused s = false -> forwarding s = [] ->
  List.filter foreground evs = script (at_saveObject 0) errs fin ->
  run config s (on_change c :: evs) = Some s' ->
  exists cs,
    calls s' = calls s
               ++ [changesReader_pause; saveObject (queueObject c);
                   fetchQueueLength; stateManager_save (Change.seq c)]
               ++ cs
    /\ List.filter forwarding_call cs
       = retry_calls config c 0 errs
         ++ (if fin then [changesReader_resume] else [])
    /\ checkpoints cs = []
    /\ forwarding s'
       = (if fin then []
          else [{| fwd_change := c;
                   fwd_at := at_saveObject (Z.of_nat (length errs)) |}])
    /\ paused s' = negb fin.
Proof.
  intros Hid Hp Hf Hs Hr. simpl in Hr. rewrite Hp in Hr.
  unfold change_listener in Hr. rewrite Hid in Hr. simpl in Hr.
  rewrite Hf in Hr. simpl in Hr.
  match type of Hr with run _ ?s1 _ = _ =>
    destruct (chain_run evs s1 c (at_saveObject 0) errs fin s' eq_refl Hs Hr)
      as (cs & Hc & Hfc & Hck & Hfin & Hpa)
  end.
  simpl in Hc, Hfin, Hpa. exists cs. rewrite Hc, Hfc, Hck, Hfin, Hpa.
  rewrite <- !app_assoc. simpl. repeat split; by destruct fin.
Qed.

(** The same run when nothing else happens in between: it exists. *)
Lemma chain_run_exists errs : forall s c r fin,
  forwarding s = [{| fwd_change := c; fwd_at := at_saveObject r |}] ->
  is_Some (run config s (script (at_saveObject r) errs fin)).
Proof.
  induction errs as [|e errs IH]; intros s c r fin Hf.
  - destruct fin; simpl; [|done]. by rewrite Hf.
  - unfold script. simpl. rewrite Hf. simpl. apply (IH _ c (r + 1) fin).
    reflexivity.
Qed.

Lemma change_run_exists c s errs fin :
  falsy (Change.id c) = false ->
  paused s = false -> forwarding s = [] ->
  is_Some (run config s (on_change c :: script (at_saveObject 0) errs fin)).
Proof.
  intros Hid Hp Hf. simpl. rewrite Hp. unfold change_listener.
  rewrite Hid. simpl. rewrite Hf. by apply (chain_run_exists errs _ c 0 fin).
Qed.

Lemma foreground_script k errs fin :
  List.filter foreground (script k errs fin) = script k errs fin.
Proof.
  unfold script. rewrite !List.filter_app. f_equal; [by destruct k|].
  f_equal; [|by destruct fin].
  induction errs as [|e errs IH]; simpl; [done|]. by rewrite IH.
Qed.


Lemma flag_after_app f cs cs' :
  flag_after f (cs ++ cs') = flag_after (flag_after f cs) cs'.
Proof.
  revert f; induction cs as [|c cs IH]; intros f; [done|].
  destruct c; simpl; apply IH.
Qed.

Lemma forwards_while_paused_app f cs cs' :
  forwards_while_paused f (cs ++ cs')
  = forwards_while_paused f cs
    && forwards_while_paused (flag_after f cs) cs'.
Proof.
  revert f; induction cs as [|c cs IH]; intros f; [done|].
  destruct c; simpl; rewrite ?IH; try done.
  by rewrite andb_assoc.
Qed.

Lemma sequential_step s ev s' :
  sequential s -> step config s ev = Some s' -> sequential s'.
Proof.
  intros (Hlen & Hp & Hw & Hfl) Hst. unfold sequential.
  unfold in_flight in Hp |- *.
  destruct ev as [c|err|i r|i|i r|i r|z]; simpl in Hst.
  - destruct (paused s) eqn:Hpa; [discriminate|]. inversion Hst; subst s'.
    unfold change_listener. destruct (falsy (Change.id c)).
    { by rewrite Hpa. }
    assert (forwarding s = []) as Hnil.
    { destruct (forwarding s); [done|congruence]. }
    simpl. rewrite Hnil. simpl. split; [lia|]. split; [done|].
    rewrite !forwards_while_paused_app, !flag_after_app, Hw, Hfl.
    by simpl.
  - inversion Hst; subst s'. simpl.
    rewrite forwards_while_paused_app, flag_after_app, Hw, Hfl. done.
  - destruct (forwarding s) as [|[c k] [|? ?]] eqn:Hf; simpl in Hlen; [| |lia].
    { by destruct i. }
    destruct i as [|i]; [|done]. simpl in Hst.
    destruct k as [retry|?]; [|done].
    destruct r as [err|]; inversion Hst; subst s'; simpl;
      rewrite forwards_while_paused_app, flag_after_app, Hw, Hfl, Hp;
      repeat split; (done || lia).
  - destruct (forwarding s) as [|[c k] [|? ?]] eqn:Hf; simpl in Hlen; [| |lia].
    { by destruct i. }
    destruct i as [|i]; [|done]. simpl in Hst.
    destruct k as [?|retry]; [done|].
    inversion Hst; subst s'; simpl.
    rewrite forwards_while_paused_app, flag_after_app, Hw, Hfl, Hp.
    repeat split; (done || lia).
  - destruct (progress s !! i) as [sq|]; [|discriminate].
    destruct r as [e|q]; inversion Hst; subst s'; simpl; [done|].
    rewrite forwards_while_paused_app, flag_after_app, Hw, Hfl. done.
  - destruct (saving s !! i) as [sq|]; [|discriminate].
    destruct r as [e|]; inversion Hst; subst s'; simpl; [|done].
    rewrite forwards_while_paused_app, flag_after_app, Hw, Hfl. done.
  - inversion Hst; subst s'. done.
Qed.

Lemma sequential_run evs : forall s s',
  sequential s -> run config s evs = Some s' -> sequential s'.
Proof.
  induction evs as [|ev evs IH]; intros s s' Hs Hr; simpl in Hr.
  - by inversion Hr; subst.
  - destruct (step config s ev) as [s1|] eqn:Hst; [|discriminate].
    eauto using sequential_step.
Qed.

Lemma sequential_listening : sequential listening.
Proof. unfold sequential, in_flight; simpl. repeat split. lia. Qed.


(** While the reader is paused and no saveObject promise settles, no
    checkpoint is written and a chain awaiting saveObject stays put. *)
Lemma unsettled_step s ev s' :
  paused s = true -> settles_saveObject ev = false ->
  step config s ev = Some s' ->
  paused s' = true
  /\ (exists cs, calls s' = calls s ++ cs /\ checkpoints cs = [])
  /\ forall i c r,
       forwarding s !! i
       = Some {| fwd_change := c; fwd_at := at_saveObject r |} ->
       forwarding s' !! i
       = Some {| fwd_change := c; fwd_at := at_saveObject r |}.
Proof.
  intros Hp Hev Hst.
  destruct ev as [c|err|i r|i|i r|i r|z]; simpl in Hst, Hev; try discriminate.
  - by rewrite Hp in Hst.
  - inversion Hst; subst s'; simpl. repeat split; [done| |done].
    eexists; split; reflexivity.
  - destruct (forwarding s !! i) as [[c [?|retry]]|] eqn:Hi; try discriminate.
    inversion Hst; subst s'; simpl. repeat split; [done| |].
    + eexists; split; reflexivity.
    + intros j c' r Hj. destruct (decide (i = j)) as [->|Hne].
      * rewrite Hi in Hj. discriminate.
      * by rewrite list_lookup_insert_ne.
  - destruct (progress s !! i) as [sq|]; [|discriminate].
    destruct r as [e|q]; inversion Hst; subst s'; simpl;
      (repeat split; [done| |done]).
    + exists []. by rewrite app_nil_r.
    + eexists; split; reflexivity.
  - destruct (saving s !! i) as [sq|]; [|discriminate].
    destruct r as [e|]; inversion Hst; subst s'; simpl;
      (repeat split; [done| |done]).
    + eexists; split; reflexivity.
    + exists []. by rewrite app_nil_r.
  - inversion Hst; subst s'; simpl. repeat split; [done| |done].
    exists []. by rewrite app_nil_r.
Qed.

Lemma unsettled_run evs : forall s s',
  paused s = true ->
  forallb (fun ev => negb (settles_saveObject ev)) evs = true ->
  run config s evs = Some s' ->
  paused s' = true
  /\ (exists cs, calls s' = calls s ++ cs /\ checkpoints cs = [])
  /\ forall i c r,
       forwarding s !! i
       = Some {| fwd_change := c; fwd_at := at_saveObject r |} ->
       forwarding s' !! i
       = Some {| fwd_change := c; fwd_at := at_saveObject r |}.
Proof.
  induction evs as [|ev evs IH]; intros s s' Hp Hall Hr; simpl in Hr.
  - inversion Hr; subst s'. repeat split; [done| |done].
    exists []. by rewrite app_nil_r.
  - destruct (step config s ev) as [s1|] eqn:Hst; [|discriminate].
    simpl in Hall. apply andb_prop in Hall as [Hev Hall].
    apply negb_true_iff in Hev.
    destruct (unsettled_step _ _ _ Hp Hev Hst) as (Hp1 & (cs1 & Hc1 & Hk1) & Hf1).
    destruct (IH _ _ Hp1 Hall Hr) as (Hp2 & (cs2 & Hc2 & Hk2) & Hf2).
    repeat split; [done| |by auto].
    exists (cs1 ++ cs2). rewrite Hc2, Hc1, <- app_assoc.
    unfold checkpoints in *. by rewrite omap_app, Hk1, Hk2.
Qed.

Lemma stop_until_first_failure reader_stop this :
  stop reader_stop this
  = [log_info [str "Stopping Watch..."]]
    ++ until_first_failure (guarded_calls reader_stop this)
    ++ remove_listeners this
    ++ [log_info [str "Stopped Watch gracefully"]].
Proof.
  unfold stop. f_equal. f_equal.
  destruct this as [rd [[[[|e1]|]]|] [[[[|e2]|]]|] [[[[|e3]|]]|]];
    destruct reader_stop as [|e0]; reflexivity.
Qed.


End WatchFacts.



(** ** Forwarding one change *)

Lemma counters_seq r n :
  counters r n = (fun k => r + Z.of_nat k) <$> seq 1 n.
Proof.
  revert r. induction n as [|n IH]; intros r; simpl; [done|].
  f_equal. rewrite IH, <- (fmap_S_seq 1), <- list_fmap_compose.
  apply list_fmap_ext. intros _ k _. simpl. lia.
Qed.

(** C1, as the code has it.  When the write of a change fails with the
    errors [errs] in turn and then succeeds, whatever progress, checkpoint
    and reader-error events happen in between, [backoff] is called with the
    retry counters 1, 2, ..., N, so the waits are bo(1), bo(2), ..., bo(N);
    with exponent 2 and cap 30000 the wait after the first failure is
    4000. *)
Theorem retry_counter_passed_to_backoff
    (config : Config) (c : Change.t) (s s' : State)
    (errs : list Err) (evs : list Event) :
  falsy (Change.id c) = false ->
  paused s = false -> forwarding s = [] ->
  List.filter foreground evs = fails_then_succeeds errs ->
  run config s (on_change c :: evs) = Some s' ->
  exists cs,
    calls s' = calls s ++ cs
    /\ backoff_retries cs = Z.of_nat <$> seq 1 (length errs)
    /\ waits cs
       = (fun a => Wait.bo a (retryBackoffPow config) (retryBackoffMax config))
           <$> (Z.of_nat <$> seq 1 (length errs))
    /\ hd_error
         ((fun a => Wait.bo a 2 30000) <$> (Z.of_nat <$> seq 1 (length errs)))
       = match errs with [] => None | _ :: _ => Some 4000 end.
Proof.
  intros Hid Hp Hf Hs Hr.
  destruct (change_run config c s errs true evs s' Hid Hp Hf Hs Hr)
    as (cs & Hc & Hfc & _).
  eexists. split; [exact Hc|].
  assert (counters 0 (length errs) = Z.of_nat <$> seq 1 (length errs)) as Hcnt.
  { rewrite counters_seq. apply list_fmap_ext. intros _ k _. lia. }
  split; [|split].
  - rewrite backoff_retries_app, <- (backoff_retries_forwarding cs), Hfc,
      backoff_retries_app, backoff_retries_retry_calls, Hcnt.
    simpl. by rewrite app_nil_r.
  - rewrite waits_app, <- (waits_forwarding cs), Hfc, waits_app,
      waits_retry_calls, Hcnt.
    simpl. by rewrite app_nil_r.
  - destruct errs as [|e errs]; reflexivity.
Qed.

Lemma retry_counter_passed_to_backoff_witness :
  exists cs,
    calls example_final = calls listening ++ cs
    /\ backoff_retries cs = Z.of_nat <$> seq 1 1
    /\ waits cs = (fun a => Wait.bo a 2 30000) <$> (Z.of_nat <$> seq 1 1)
    /\ hd_error ((fun a => Wait.bo a 2 30000) <$> (Z.of_nat <$> seq 1 1))
       = Some 4000.
Proof.
  apply (retry_counter_passed_to_backoff example_config example_change
           listening example_final ["ETIMEDOUT"%string] (tail example_run));
    reflexivity.
Defined.

(** C1 as stated fails: with exponent 2 and cap 30000, after the first
    failed attempt [backoff] receives 1, not 0, and the wait is 4000, not
    bo(0) = 1000. *)
Lemma first_wait_is_not_1000 :
  run example_config listening example_run = Some example_final
  /\ backoff_retries (calls example_final) = [1]
  /\ backoff_retries (calls example_final) <> [0]
  /\ waits (calls example_final) = [4000]
  /\ Wait.bo 0 2 30000 = 1000
  /\ waits (calls example_final) <> [Wait.bo 0 2 30000].
Proof.
  split; [reflexivity|]. split; [reflexivity|].
  split; [vm_compute; discriminate|]. split; [reflexivity|].
  split; [reflexivity|]. vm_compute; discriminate.
Qed.

(** C3.  Whatever the number of failed attempts, and whatever happens in
    between, every object given to saveObject for a change is
    [{ objectID: change.id, retries: 0, change }]: the N failures and the
    final success make N + 1 calls, all with that same object. *)
Theorem queued_object_has_retries_zero
    (config : Config) (c : Change.t) (s s' : State)
    (errs : list Err) (evs : list Event) :
  falsy (Change.id c) = false ->
  paused s = false -> forwarding s = [] ->
  List.filter foreground evs = fails_then_succeeds errs ->
  run config s (on_change c :: evs) = Some s' ->
  exists cs,
    calls s' = calls s ++ cs
    /\ saveObjects cs
       = replicate (S (length errs))
           {| objectID := Change.id c; retries := 0; change := c |}.
Proof.
  intros Hid Hp Hf Hs Hr.
  destruct (change_run config c s errs true evs s' Hid Hp Hf Hs Hr)
    as (cs & Hc & Hfc & _).
  eexists. split; [exact Hc|].
  rewrite saveObjects_app, <- (saveObjects_forwarding cs), Hfc,
    saveObjects_app, saveObjects_retry_calls.
  simpl. by rewrite app_nil_r.
Qed.

Lemma queued_object_has_retries_zero_witness :
  exists cs,
    calls example_final = calls listening ++ cs
    /\ saveObjects cs
       = replicate 2
           {| objectID := Some "lodash"%string; retries := 0;
              change := example_change |}.
Proof.
  apply (queued_object_has_retries_zero example_config example_change
           listening example_final ["ETIMEDOUT"%string] (tail example_run));
    reflexivity.
Defined.

(** In every state the consumer can reach, every object ever given to
    saveObject has retries 0 and the id of its change as objectID. *)
Lemma saveObjects_step config s ev s' :
  step config s ev = Some s' ->
  exists cs, calls s' = calls s ++ cs
    /\ Forall (fun o => o = queueObject (change o)) (saveObjects cs).
Proof.
  intros Hst. destruct ev as [c|err|i r|i|i r|i r|z]; simpl in Hst.
  - destruct (paused s); [discriminate|]. inversion Hst; subst s'.
    unfold change_listener. destruct (falsy (Change.id c)).
    + exists []. by rewrite app_nil_r.
    + simpl. rewrite <- !app_assoc. eexists. split; [reflexivity|].
      simpl. by repeat constructor.
  - inversion Hst; subst s'. eexists. split; [reflexivity|]. constructor.
  - destruct (forwarding s !! i) as [[c [retry|?]]|]; try discriminate.
    destruct r as [err|]; inversion Hst; subst s';
      (eexists; split; [reflexivity|]; constructor).
  - destruct (forwarding s !! i) as [[c [?|retry]]|]; try discriminate.
    inversion Hst; subst s'. eexists. split; [reflexivity|].
    simpl. by repeat constructor.
  - destruct (progress s !! i) as [sq|]; [|discriminate].
    destruct r as [e|q]; inversion Hst; subst s'.
    + exists []. by rewrite app_nil_r.
    + eexists. split; [reflexivity|]. constructor.
  - destruct (saving s !! i) as [sq|]; [|discriminate].
    destruct r as [e|]; inversion Hst; subst s'.
    + eexists. split; [reflexivity|]. constructor.
    + exists []. by rewrite app_nil_r.
  - inversion Hst; subst s'. exists []. by rewrite app_nil_r.
Qed.

(** C6.  There is no retry ceiling.  For any list of N failures: the run
    in which the write fails N times and then succeeds exists; in every
    such run, with anything else happening in between, exactly N + 1
    saveObject calls are made and the chain then resolves (nothing is
    left in flight and the reader is resumed); and as long as only
    failures happen the chain is still in flight, at its attempt N + 1. *)
Theorem no_retry_ceiling
    (config : Config) (c : Change.t) (s : State) (errs : list Err) :
  falsy (Change.id c) = false ->
  paused s = false -> forwarding s = [] ->
  is_Some (run config s (on_change c :: fails_then_succeeds errs))
  /\ (forall evs s',
        List.filter foreground evs = fails_then_succeeds errs ->
        run config s (on_change c :: evs) = Some s' ->
        exists cs,
          calls s' = calls s ++ cs
          /\ length (saveObjects cs) = S (length errs)
          /\ resumes cs = [changesReader_resume]
          /\ forwarding s' = [] /\ paused s' = false)
  /\ (forall evs s',
        List.filter foreground evs = failures errs ->
        run config s (on_change c :: evs) = Some s' ->
        exists cs,
          calls s' = calls s ++ cs
          /\ length (saveObjects cs) = S (length errs)
          /\ forwarding s'
             = [{| fwd_change := c;
                   fwd_at := at_saveObject (Z.of_nat (length errs)) |}]
          /\ paused s' = true).
Proof.
  intros Hid Hp Hf. split; [|split].
  - apply (change_run_exists config c s errs true Hid Hp Hf).
  - intros evs s' Hs Hr.
    destruct (change_run config c s errs true evs s' Hid Hp Hf Hs Hr)
      as (cs & Hc & Hfc & _ & Hfw & Hpa).
    eexists. split; [exact Hc|]. split; [|split; [|by split]].
    + rewrite saveObjects_app, <- (saveObjects_forwarding cs), Hfc,
        saveObjects_app, saveObjects_retry_calls.
      simpl. rewrite app_nil_r, length_replicate. done.
    + change (resumes ([changesReader_pause; saveObject (queueObject c);
                        fetchQueueLength; stateManager_save (Change.seq c)]
                       ++ cs)) with (resumes cs).
      rewrite <- (resumes_forwarding cs), Hfc. unfold resumes.
      rewrite List.filter_app. fold (resumes (retry_calls config c 0 errs)).
      by rewrite resumes_retry_calls.
  - intros evs s' Hs Hr.
    assert (List.filter foreground evs = script (at_saveObject 0) errs false)
      as Hs' by (unfold script; simpl; by rewrite app_nil_r).
    destruct (change_run config c s errs false evs s' Hid Hp Hf Hs' Hr)
      as (cs & Hc & Hfc & _ & Hfw & Hpa).
    eexists. split; [exact Hc|]. split; [|by split].
    rewrite saveObjects_app, <- (saveObjects_forwarding cs), Hfc,
      saveObjects_app, saveObjects_retry_calls.
    simpl. rewrite !app_nil_r, length_replicate. done.
Qed.

Lemma no_retry_ceiling_witness :
  is_Some (run example_config listening
             (on_change example_change
                :: fails_then_succeeds ["ETIMEDOUT"%string; "ECONNRESET"%string])).
Proof.
  apply (no_retry_ceiling example_config example_change listening
           ["ETIMEDOUT"%string; "ECONNRESET"%string]); reflexivity.
Defined.

(** C7, as the code has it.  When the saveObject promise of a chain
    suspended in [storeChange(retry)] rejects with [err], the calls made
    are exactly: one [log.err('Error adding a change to the queue.',
    { err })], then the log line and the timer of [backoff(retry + 1)].
    The error tracker is not called, and nothing identifying the change
    is passed along. *)
Theorem failed_attempt_is_logged
    (config : Config) (s : State) (i : nat) (c : Change.t) (retry : Z)
    (err : Err) :
  forwarding s !! i
  = Some {| fwd_change := c; fwd_at := at_saveObject retry |} ->
  exists s',
    step config s (saveObject_settled i (Some err)) = Some s'
    /\ calls s'
       = calls s
         ++ [log_err "Error adding a change to the queue." err;
             log_info [str "Retrying ("; num (retry + 1);
                       str "), waiting for";
                       num (Wait.bo (retry + 1) (retryBackoffPow config)
                              (retryBackoffMax config))];
             setTimeout (Wait.bo (retry + 1) (retryBackoffPow config)
                           (retryBackoffMax config))]
    /\ logged_errors (drop (length (calls s)) (calls s')) = [err]
    /\ reports (drop (length (calls s)) (calls s')) = [].
Proof.
  intros Hi. simpl. rewrite Hi. simpl. eexists. split; [reflexivity|].
  simpl. split; [reflexivity|]. rewrite drop_app_length. by split.
Qed.

Lemma failed_attempt_is_logged_witness :
  exists s',
    step example_config
      (default listening
         (step example_config listening (on_change example_change)))
      (saveObject_settled 0 (Some "ETIMEDOUT"%string)) = Some s'
    /\ logged_errors (drop 4 (calls s')) = ["ETIMEDOUT"%string]
    /\ reports (drop 4 (calls s')) = [].
Proof.
  destruct (failed_attempt_is_logged example_config
              (default listening
                 (step example_config listening (on_change example_change)))
              0 example_change 0 "ETIMEDOUT"%string eq_refl)
    as (s' & Hst & _ & Hl & Hr).
  exists s'. split; [exact Hst|]. split; [exact Hl | exact Hr].
Defined.

(** C7 as stated fails: in the example run one saveObject call fails and
    is logged, yet the error tracker is never called. *)
Lemma failed_attempt_is_not_reported :
  run example_config listening example_run = Some example_final
  /\ logged_errors (calls example_final) = ["ETIMEDOUT"%string]
  /\ reports (calls example_final) = []
  /\ length (reports (calls example_final))
     <> length (logged_errors (calls example_final)).
Proof.
  split; [reflexivity|]. split; [reflexivity|]. split; [reflexivity|].
  vm_compute. discriminate.
Qed.

(** C9.  A change whose id is absent or empty is skipped by the listener:
    the state after it is the state before it, so the reader is not
    paused, nothing is forwarded, no checkpoint is saved, no progress is
    logged and no call at all is made. *)
Theorem change_without_id_is_skipped
    (config : Config) (c : Change.t) (s : State) :
  Change.id c = None \/ Change.id c = Some ""%string ->
  change_listener c s = s
  /\ step config s (on_change c) = (if paused s then None else Some s).
Proof.
  intros Hid.
  assert (falsy (Change.id c) = true) as Hf
    by (destruct Hid as [-> | ->]; reflexivity).
  unfold step, change_listener. by rewrite Hf.
Qed.

Lemma change_without_id_is_skipped_witness :
  change_listener (Change.mk (Some ""%string) 7 [] false)
    listening = listening
  /\ step example_config listening
       (on_change (Change.mk (Some ""%string) 7 [] false))
     = (if paused listening then None else Some listening).
Proof.
  apply (change_without_id_is_skipped example_config
           (Change.mk (Some ""%string) 7 [] false) listening).
  right. reflexivity.
Defined.

(** C4.  In every state reachable from the one in which the listeners
    were attached: at most one change is being forwarded; the reader is
    paused exactly while one is; and in the log every saveObject call comes
    after a pause that no resume has followed yet.  A change with an id
    is delivered only while no other is being forwarded, and the listener
    then calls [pause()] first and [saveObject] right after it, without any
    [resume()], and leaves the reader paused with that change in flight.
    [resume()] is called in one kind of turn only, the one in which the
    saveObject promise of the change in flight resolves; nothing else is
    called in that turn, and the forward is over. *)
Theorem one_change_forwarded_at_a_time
    (config : Config) (evs : list Event) (s : State) :
  run config listening evs = Some s ->
  (length (forwarding s) <= 1)%nat
  /\ paused s = in_flight s
  /\ forwards_while_paused false (calls s) = true
  /\ flag_after false (calls s) = paused s
  /\ (forall c s',
        step config s (on_change c) = Some s' ->
        falsy (Change.id c) = false ->
        forwarding s = []
        /\ (exists rest,
              calls s'
              = calls s
                ++ changesReader_pause :: saveObject (queueObject c) :: rest
              /\ resumes rest = [])
        /\ paused s' = true
        /\ forwarding s'
           = [{| fwd_change := c; fwd_at := at_saveObject 0 |}])
  /\ (forall ev s',
        step config s ev = Some s' ->
        exists cs,
          calls s' = calls s ++ cs
          /\ match ev with
             | saveObject_settled i None =>
                 i = 0%nat
                 /\ (exists c retry,
                       forwarding s
                       = [{| fwd_change := c;
                             fwd_at := at_saveObject retry |}])
                 /\ cs = [changesReader_resume]
                 /\ forwarding s' = []
                 /\ paused s' = false
             | _ => resumes cs = []
             end).
Proof.
  intros Hr.
  destruct (sequential_run config evs listening s sequential_listening Hr)
    as (Hlen & Hp & Hfw & Hflag).
  split; [exact Hlen|]. split; [exact Hp|]. split; [exact Hfw|].
  split; [exact Hflag|]. split.
  - intros c s' Hst Hid. simpl in Hst.
    destruct (paused s) eqn:Hps; [discriminate|].
    assert (forwarding s = []) as Hnone.
    { unfold in_flight in Hp. by destruct (forwarding s). }
    injection Hst as <-. unfold change_listener. rewrite Hid. simpl.
    rewrite Hnone. split; [done|]. split; [|done].
    exists [fetchQueueLength; stateManager_save (Change.seq c)].
    split; [|done]. by rewrite <- !app_assoc.
  - intros ev s' Hst. destruct ev as [c|err|i [err|]|i|i result|i [err|]|z];
      simpl in Hst.
    + destruct (paused s); [discriminate|]. injection Hst as <-.
      unfold change_listener. destruct (falsy (Change.id c)).
      * exists []. by rewrite app_nil_r.
      * eexists. simpl. rewrite <- !app_assoc. split; [reflexivity|done].
    + injection Hst as <-. by eexists.
    + destruct (forwarding s !! i) as [[c [retry|newRetry]]|];
        [|discriminate..]. injection Hst as <-. by eexists.
    + destruct (forwarding s !! i) as [[c [retry|newRetry]]|] eqn:Hi;
        [|discriminate..]. injection Hst as <-.
      exists [changesReader_resume]. split; [done|].
      destruct (forwarding s) as [|f [|f' l]] eqn:Hf;
        [done| |simpl in Hlen; lia].
      destruct i as [|i]; [|done]. simpl in Hi. injection Hi as ->.
      split; [done|]. split; [by eexists _, _|]. done.
    + destruct (forwarding s !! i) as [[c [retry|newRetry]]|];
        [discriminate| |discriminate]. injection Hst as <-. by eexists.
    + destruct (progress s !! i) as [seq|]; [|discriminate].
      destruct result as [err|queueLength]; injection Hst as <-.
      * exists []. by rewrite app_nil_r.
      * by eexists.
    + destruct (saving s !! i) as [seq|]; [|discriminate].
      injection Hst as <-.
      * by eexists.
    + destruct (saving s !! i) as [seq|]; [|discriminate].
      injection Hst as <-. exists []. by rewrite app_nil_r.
    + injection Hst as <-. exists []. by rewrite app_nil_r.
Qed.

Lemma one_change_forwarded_at_a_time_witness :
  (length (forwarding example_final) <= 1)%nat
  /\ paused example_final = in_flight example_final
  /\ forwards_while_paused false (calls example_final) = true
  /\ flag_after false (calls example_final) = paused example_final
  /\ forwarding example_final = []
  /\ paused (change_listener example_change example_final) = true.
Proof.
  destruct (one_change_forwarded_at_a_time example_config example_run
              example_final eq_refl)
    as (Hlen & Hp & Hfw & Hflag & Hdeliver & _).
  destruct (Hdeliver example_change
              (change_listener example_change example_final)
              eq_refl eq_refl) as (Hnone & _ & Hpaused & _).
  repeat split; assumption.
Defined.

(** C5.  The checkpoint is not sequenced after the forward.  When a change
    with an id is delivered, the listener itself calls
    [stateManager.save({ seq })], after pause, the first saveObject and
    fetchQueueLength; and if no saveObject promise ever settles afterwards,
    whatever else happens, that is the only checkpoint written while the
    forward is still waiting for its first write. *)
Theorem checkpoint_does_not_wait_for_forward
    (config : Config) (c : Change.t) (s s' : State) (evs : list Event) :
  falsy (Change.id c) = false ->
  paused s = false ->
  forallb (fun ev => negb (settles_saveObject ev)) evs = true ->
  run config s (on_change c :: evs) = Some s' ->
  exists cs,
    calls s' = calls s
               ++ [changesReader_pause; saveObject (queueObject c);
                   fetchQueueLength; stateManager_save (Change.seq c)]
               ++ cs
    /\ checkpoints cs = []
    /\ forwarding s' !! length (forwarding s)
       = Some {| fwd_change := c; fwd_at := at_saveObject 0 |}.
Proof.
  intros Hid Hp Hall Hr. simpl in Hr. rewrite Hp in Hr.
  unfold change_listener in Hr. rewrite Hid in Hr.
  match type of Hr with run _ ?s1 _ = _ =>
    destruct (unsettled_run config evs s1 s' eq_refl Hall Hr)
      as (_ & (cs & Hc & Hk) & Hfw)
  end.
  exists cs. split; [|split; [exact Hk|]].
  - rewrite Hc. simpl. by rewrite <- !app_assoc.
  - apply Hfw. simpl. by rewrite list_lookup_middle.
Qed.

Lemma checkpoint_does_not_wait_for_forward_witness :
  exists cs,
    calls example_unsettled
    = calls listening
      ++ [changesReader_pause; saveObject (queueObject example_change);
          fetchQueueLength; stateManager_save (Change.seq example_change)]
      ++ cs
    /\ checkpoints cs = []
    /\ forwarding example_unsettled !! length (forwarding listening)
       = Some {| fwd_change := example_change; fwd_at := at_saveObject 0 |}.
Proof.
  apply (checkpoint_does_not_wait_for_forward example_config example_change
           listening example_unsettled (tail example_unsettled_run));
    reflexivity.
Defined.




(** ** The escaping pass of formatPkg *)

Section EscapingPass.

Variable escape : string -> string.

Local Abbreviation esc := (maybeEscape escape).

(** *** Properties as association lists *)

Lemma assoc_get_set_eq k x l : assoc_get k (assoc_set k x l) = Some x.
Proof.
  induction l as [|[k' v] l IH]; simpl.
  - by rewrite decide_True.
  - destruct (decide (k' = k)) as [->|Hne]; simpl.
    + by rewrite decide_True.
    + by rewrite decide_False.
Qed.

Lemma assoc_get_set_ne k k' x l :
  k' <> k -> assoc_get k' (assoc_set k x l) = assoc_get k' l.
Proof.
  intros Hne. induction l as [|[k0 v] l IH]; simpl.
  - by rewrite decide_False.
  - destruct (decide (k0 = k)) as [->|Hne0]; simpl.
    + by rewrite !decide_False.
    + destruct (decide (k0 = k')); [done|]. exact IH.
Qed.

Lemma assoc_get_Some_keys k l v : assoc_get k l = Some v -> k ∈ l.*1.
Proof.
  induction l as [|[k0 v0] l IH]; simpl; [done|].
  destruct (decide (k0 = k)) as [->|Hne]; intros H.
  - apply list_elem_of_here.
  - apply list_elem_of_further. by apply IH.
Qed.

Lemma assoc_get_keys k l : k ∈ l.*1 -> is_Some (assoc_get k l).
Proof.
  induction l as [|[k0 v0] l IH]; simpl; intros H.
  - by apply elem_of_nil in H.
  - destruct (decide (k0 = k)) as [->|Hne]; [by eexists|].
    apply IH. apply elem_of_cons in H as [->|H]; [done|exact H].
Qed.

Lemma assoc_set_keys k x l :
  is_Some (assoc_get k l) -> (assoc_set k x l).*1 = l.*1.
Proof.
  induction l as [|[k0 v0] l IH]; simpl; intros [v H]; [done|].
  destruct (decide (k0 = k)) as [->|Hne]; simpl; [done|].
  f_equal. apply IH. by exists v.
Qed.

(** *** Escaping is a preorder on heaps *)

Lemma escaped_from_refl k v : escaped_from escape k v v.
Proof.
  unfold escaped_from. destruct v as [[| | | |s|]|]; try done.
  destruct (decide (k = "readme"%string)); [done|]. by exists 0%nat.
Qed.

Lemma escaped_from_trans k v1 v2 v3 :
  escaped_from escape k v1 v2 -> escaped_from escape k v2 v3 ->
  escaped_from escape k v1 v3.
Proof.
  unfold escaped_from. destruct v1 as [[| | | |s|]|]; try (by intros ->).
  destruct (decide (k = "readme"%string)) as [Hk|Hk].
  - by intros ->.
  - intros [n ->]. intros [m ->].
    exists (m + n)%nat. by rewrite Nat.iter_add.
Qed.

Lemma escaping_refl h : escaping escape h h.
Proof.
  intros a. destruct (h !! a); [|done].
  repeat split. intros k. apply escaped_from_refl.
Qed.

Lemma escaping_trans h1 h2 h3 :
  escaping escape h1 h2 -> escaping escape h2 h3 -> escaping escape h1 h3.
Proof.
  intros H12 H23 a. specialize (H12 a). specialize (H23 a).
  destruct (h1 !! a) as [o1|], (h2 !! a) as [o2|], (h3 !! a) as [o3|];
    try done.
  destruct H12 as (Ha & Hk & Hv), H23 as (Ha' & Hk' & Hv').
  repeat split; [congruence|congruence|].
  intros k. eapply escaped_from_trans; eauto.
Qed.

Lemma escaping_dom h h' : escaping escape h h' -> dom h' = dom h.
Proof.
  intros H. apply set_eq. intros a. rewrite !elem_of_dom.
  specialize (H a). by destruct (h !! a), (h' !! a).
Qed.

Lemma escaping_lookup h h' a o :
  escaping escape h h' -> h !! a = Some o ->
  exists o', h' !! a = Some o' /\ is_array o' = is_array o
             /\ keys o' = keys o
             /\ forall k, escaped_from escape k (assoc_get k (props o))
                            (assoc_get k (props o')).
Proof.
  intros H Ha. specialize (H a). rewrite Ha in H.
  destruct (h' !! a) as [o'|]; [|done]. by exists o'.
Qed.

Lemma escaping_lookup_inv h h' a o' :
  escaping escape h h' -> h' !! a = Some o' ->
  exists o, h !! a = Some o /\ is_array o' = is_array o
            /\ keys o' = keys o
            /\ forall k, escaped_from escape k (assoc_get k (props o))
                           (assoc_get k (props o')).
Proof.
  intros H Ha. specialize (H a). rewrite Ha in H.
  destruct (h !! a) as [o|]; [|done]. by exists o.
Qed.

(** Escaping changes strings only. *)
Lemma escaped_from_not_text k v v' :
  escaped_from escape k (Some v) v' -> (forall s, v <> text s) ->
  v' = Some v.
Proof.
  unfold escaped_from. destruct v as [| | | |s|]; try (by intros ->).
  intros _ H. by destruct (H s).
Qed.

Lemma escaped_from_inv_not_text k v v' :
  escaped_from escape k v (Some v') -> (forall s, v' <> text s) ->
  v = Some v'.
Proof.
  unfold escaped_from. destruct v as [[| | | |s|]|]; try (by intros ->).
  destruct (decide (k = "readme"%string)) as [?|Hne]; [by intros ->|].
  intros [m Hm] H. inversion Hm; subst v'.
  by destruct (H (Nat.iter m escape s)).
Qed.

(** Overwriting a string property by its escaped form. *)
Lemma set_prop_escaping h a o k s :
  h !! a = Some o -> assoc_get k (props o) = Some (text s) ->
  k <> "readme"%string ->
  escaping escape h (set_prop h a k (text (escape s))).
Proof.
  intros Ha Hk Hne b. unfold set_prop. rewrite Ha.
  destruct (decide (a = b)) as [<-|Hab].
  - rewrite Ha, lookup_insert_eq. simpl. split; [done|]. split.
    + unfold keys. simpl. apply assoc_set_keys. by eexists.
    + intros k'. destruct (decide (k' = k)) as [->|Hk'].
      * rewrite assoc_get_set_eq, Hk. unfold escaped_from.
        rewrite decide_False by done. by exists 1%nat.
      * rewrite assoc_get_set_ne by done. apply escaped_from_refl.
  - rewrite lookup_insert_ne by done. apply escaping_refl.
Qed.

Lemma set_prop_same h a o k v :
  h !! a = Some o -> assoc_get k (props o) = Some v ->
  escaping escape h (set_prop h a k v).
Proof.
  intros Ha Hk b. unfold set_prop. rewrite Ha.
  destruct (decide (a = b)) as [<-|Hab].
  - rewrite Ha, lookup_insert_eq. simpl. split; [done|]. split.
    + unfold keys. simpl. apply assoc_set_keys. by eexists.
    + intros k'. destruct (decide (k' = k)) as [->|Hk'].
      * rewrite assoc_get_set_eq, Hk. apply escaped_from_refl.
      * rewrite assoc_get_set_ne by done. apply escaped_from_refl.
  - rewrite lookup_insert_ne by done. apply escaping_refl.
Qed.

(** *** Being escaped at least once survives more escaping *)

Lemma escaped_at_before h0 h h' a k :
  escaping escape h0 h -> escaped_at escape h h' a k ->
  escaped_at escape h0 h' a k.
Proof.
  intros H0 Hat o0 s Ha Hk Hne.
  destruct (escaping_lookup _ _ _ _ H0 Ha) as (o & Ho & _ & _ & Hv).
  specialize (Hv k). rewrite Hk in Hv. unfold escaped_from in Hv.
  rewrite decide_False in Hv by done. destruct Hv as [n Hn].
  destruct (Hat o _ Ho Hn Hne) as (o' & m & Ho' & Hm).
  exists o', (m + n)%nat. split; [done|]. rewrite Hm.
  f_equal. f_equal. simpl. f_equal. by rewrite Nat.iter_add.
Qed.

Lemma escaped_at_after h h1 h' a k :
  escaped_at escape h h1 a k -> escaping escape h1 h' ->
  escaped_at escape h h' a k.
Proof.
  intros Hat H1 o s Ha Hk Hne.
  destruct (Hat o s Ha Hk Hne) as (o1 & n & Ho1 & Hn).
  destruct (escaping_lookup _ _ _ _ H1 Ho1) as (o' & Ho' & _ & _ & Hv).
  specialize (Hv k). rewrite Hn in Hv. unfold escaped_from in Hv.
  rewrite decide_False in Hv by done. destruct Hv as [m Hm].
  exists o', (m + n)%nat. split; [done|]. rewrite Hm.
  f_equal. f_equal. rewrite <- Nat.iter_add.
  replace (m + S n)%nat with (S (m + n)) by lia. done.
Qed.

(** *** Paths do not see escaping *)

Lemma reaches_is_ref h P v b k : reaches h P v b k -> exists a, v = ref a.
Proof. destruct 1; by eexists. Qed.

Lemma reaches_escaping h h' P v b k :
  escaping escape h h' -> reaches h P v b k -> reaches h' P v b k.
Proof.
  intros He Hr. induction Hr as [P a o k Hin Ha Hk | P a o k v b k' Hin Ha Hk Hr IH].
  - destruct (escaping_lookup _ _ _ _ He Ha) as (o' & Ho' & _ & Hks & _).
    eapply reaches_here; eauto. by rewrite Hks.
  - destruct (escaping_lookup _ _ _ _ He Ha) as (o' & Ho' & _ & _ & Hv).
    destruct (reaches_is_ref _ _ _ _ _ Hr) as [c ->].
    specialize (Hv k). rewrite Hk in Hv.
    apply escaped_from_not_text in Hv; [|done].
    eapply reaches_below; eauto.
Qed.

Lemma reaches_weaken h P Q v b k :
  (forall x, x ∈ Q -> x ∈ P) -> reaches h P v b k -> reaches h Q v b k.
Proof.
  intros HQ Hr. revert Q HQ.
  induction Hr as [P a o k Hin Ha Hk | P a o k v b k' Hin Ha Hk Hr IH];
    intros Q HQ.
  - eapply reaches_here; eauto.
  - eapply reaches_below; eauto. apply IH.
    intros x [->|Hx]%elem_of_cons; [apply list_elem_of_here|].
    apply list_elem_of_further. by apply HQ.
Qed.

(** A path can be entered one property earlier: either it already avoids
    the new object, or it goes through it and can start there. *)
Lemma reaches_through h P v b k a :
  a ∉ P -> reaches h P v b k ->
  reaches h (a :: P) v b k \/ reaches h P (ref a) b k.
Proof.
  intros Ha Hr.
  induction Hr as [P c o k Hin Hc Hk | P c o k v b k' Hin Hc Hk Hr IH].
  - destruct (decide (c = a)) as [->|Hne].
    + right. eapply reaches_here; eauto.
    + left. eapply reaches_here; eauto.
      intros [?|?]%elem_of_cons; done.
  - destruct (decide (c = a)) as [->|Hne].
    + right. eapply reaches_below; eauto.
    + destruct IH as [IH|IH].
      * intros [?|?]%elem_of_cons; [congruence|done].
      * left. eapply reaches_below; eauto.
        { intros [?|?]%elem_of_cons; done. }
        eapply reaches_weaken; [|exact IH].
        intros x. rewrite !elem_of_cons. tauto.
      * right. eapply reaches_weaken; [|exact IH].
        intros x Hx. by apply list_elem_of_further.
Qed.

Lemma reachable_reaches h v b o k :
  reachable h v b -> h !! b = Some o -> k ∈ keys o ->
  reaches h [] v b k.
Proof.
  intros Hr Hb Hk.
  induction Hr as [a | a oa ka v b Ha Hka Hr IH].
  - eapply reaches_here; eauto. apply not_elem_of_nil.
  - specialize (IH Hb).
    destruct (reaches_through h [] v b k a (not_elem_of_nil a) IH) as [H|H].
    + eapply reaches_below; eauto. apply not_elem_of_nil.
    + exact H.
Qed.

Lemma reachable_escaping_inv h h' v b :
  escaping escape h h' -> reachable h' v b -> reachable h v b.
Proof.
  intros He Hr. induction Hr as [a | a o' k v b Ha Hk Hr IH].
  - constructor.
  - destruct (escaping_lookup_inv _ _ _ _ He Ha) as (o & Ho & _ & _ & Hv).
    assert (exists c, v = ref c) as [c ->] by (inversion Hr; by eexists).
    specialize (Hv k). rewrite Hk in Hv.
    apply escaped_from_inv_not_text in Hv; [|done].
    eapply reachable_prop; eauto.
Qed.

(** *** The walk *)

Lemma walker_text fuel P key s h :
  walker esc fuel P key (text s) h
  = Some (update P key
            (if decide (key = Some "readme"%string) then text s
             else text (escape s)) h,
          if decide (key = Some "readme"%string) then text s
          else text (escape s)).
Proof.
  destruct fuel; simpl; by destruct (decide (key = Some "readme"%string)).
Qed.

Lemma walker_ref fuel P key a h :
  walker esc fuel P key (ref a) h
  = match h !! a with
    | Some o =>
        if decide (a ∈ P) then Some (h, ref a)
        else
          match fuel with
          | O => None
          | S fuel' =>
              h' ← foldl
                     (fun acc k =>
                        h ← acc;
                        fst <$> walker esc fuel' (a :: P) (Some k)
                                  (get_prop h (ref a) k) h)
                     (Some h) (keys o);
              Some (h', ref a)
          end
    | None => Some (h, ref a)
    end.
Proof. destruct fuel; reflexivity. Qed.

Lemma walker_primitive fuel P key v h :
  (forall s, v <> text s) -> (forall a, v <> ref a) ->
  walker esc fuel P key v h = Some (h, v).
Proof.
  intros Ht Hr. destruct v as [| | | |s|a]; try (by destruct fuel).
  - by destruct (Ht s).
  - by destruct (Hr a).
Qed.

Lemma foldl_None {A} (f : option heap -> A -> option heap) ks :
  (forall k, f None k = None) -> foldl f None ks = None.
Proof. intros Hf. induction ks as [|k ks IH]; simpl; [done|]. by rewrite Hf. Qed.

Lemma visit_text P key s h :
  in_place P key (text s) h ->
  visit_ok escape P key (text s) h
    (update P key
       (if decide (key = Some "readme"%string) then text s
        else text (escape s)) h)
    (if decide (key = Some "readme"%string) then text s
     else text (escape s)).
Proof.
  intros Hin. unfold visit_ok.
  assert (forall b kb, ~ reaches h P (text s) b kb) as Hnr
    by (intros b kb Hr; by destruct (reaches_is_ref _ _ _ _ _ Hr)).
  destruct P as [|p P'], key as [k|]; simpl;
    try (split; [apply escaping_refl|];
         split; [by intros|]; split; [by intros ? ? ?%Hnr|by intros]).
  destruct (Hin p P' k eq_refl eq_refl) as (o & Hp & Hk).
  destruct (decide (Some k = Some "readme"%string)) as [[= ->]|Hne].
  - split; [by eapply set_prop_same|].
    split; [|split; [by intros ? ? ?%Hnr|by intros]].
    intros s0 p0 P0 k0 _ [= <- _] [= <-] o0 s1 _ _ Hk0. by destruct Hk0.
  - assert (k <> "readme"%string) as Hk' by congruence.
    split; [by eapply set_prop_escaping|].
    split; [|split; [by intros ? ? ?%Hnr|by intros]].
    intros s0 p0 P0 k0 _ [= <- _] [= <-] o0 s1 Hp0 Hk0 _.
    rewrite Hp in Hp0. inversion Hp0; subst o0.
    rewrite Hk in Hk0. inversion Hk0; subst s1.
    unfold set_prop. rewrite Hp. eexists _, 0%nat.
    rewrite lookup_insert_eq. split; [reflexivity|].
    simpl. by rewrite assoc_get_set_eq.
Qed.

Lemma visit_nothing P key node h :
  (forall s, node <> text s) ->
  (forall b kb, ~ reaches h P node b kb) ->
  visit_ok escape P key node h h node.
Proof.
  intros Ht Hr. split; [apply escaping_refl|].
  split; [intros s ? ? ? ->; by destruct (Ht s)|].
  split; [by intros ? ? ?%Hr|done].
Qed.

Lemma get_prop_escaping_ref h h' v k c :
  escaping escape h h' -> get_prop h v k = ref c ->
  get_prop h' v k = ref c.
Proof.
  intros He. destruct v as [| | | | |a]; try done. simpl.
  destruct (h !! a) as [o|] eqn:Ha; [|done].
  destruct (escaping_lookup _ _ _ _ He Ha) as (o' & -> & _ & _ & Hv).
  specialize (Hv k).
  destruct (assoc_get k (props o)) as [v|]; [|done]. simpl. intros ->.
  apply escaped_from_not_text in Hv; [|done]. by rewrite Hv.
Qed.

Lemma get_prop_key h a o k :
  h !! a = Some o -> k ∈ keys o ->
  assoc_get k (props o) = Some (get_prop h (ref a) k).
Proof.
  intros Ha Hk. simpl. rewrite Ha.
  by destruct (assoc_get_keys k (props o) Hk) as [v ->].
Qed.

Lemma children_cons fuel a P k ks h :
  foldl (fun acc k =>
           h ← acc;
           fst <$> walker esc fuel (a :: P) (Some k)
                     (get_prop h (ref a) k) h)
    (Some h) (k :: ks)
  = foldl (fun acc k =>
             h ← acc;
             fst <$> walker esc fuel (a :: P) (Some k)
                       (get_prop h (ref a) k) h)
      (fst <$> walker esc fuel (a :: P) (Some k) (get_prop h (ref a) k) h)
      ks.
Proof. reflexivity. Qed.

(** The loop over the keys of the object at [a], given that visits
    with the fuel at hand are sound. *)
Lemma children_sound fuel a P :
  (forall P key node h h' v',
      in_place P key node h ->
      walker esc fuel P key node h = Some (h', v') ->
      visit_ok escape P key node h h' v') ->
  forall ks h h' o,
    h !! a = Some o -> (forall k, k ∈ ks -> k ∈ keys o) ->
    foldl (fun acc k =>
             h ← acc;
             fst <$> walker esc fuel (a :: P) (Some k)
                       (get_prop h (ref a) k) h)
      (Some h) ks = Some h' ->
    escaping escape h h'
    /\ forall k, k ∈ ks ->
         escaped_at escape h h' a k
         /\ forall b kb,
              reaches h (a :: P) (get_prop h (ref a) k) b kb ->
              escaped_at escape h h' b kb.
Proof.
  intros IH. induction ks as [|k ks IHks]; intros h h' o Ha Hks Hf.
  - simpl in Hf. inversion Hf; subst h'. split; [apply escaping_refl|].
    by intros k ?%elem_of_nil.
  - rewrite children_cons in Hf.
    destruct (walker esc fuel (a :: P) (Some k) (get_prop h (ref a) k) h)
      as [[h1 v1]|] eqn:Hw;
      [|rewrite foldl_None in Hf by done; discriminate].
    change (fst <$> Some (h1, v1)) with (Some h1) in Hf.
    assert (k ∈ keys o) as Hk by (apply Hks, list_elem_of_here).
    assert (in_place (a :: P) (Some k) (get_prop h (ref a) k) h) as Hin.
    { intros p P' k0 [= <- <-] [= <-]. exists o. split; [done|].
      by apply get_prop_key. }
    destruct (IH _ _ _ _ _ _ Hin Hw) as (He1 & Htext & Hbelow & _).
    destruct (escaping_lookup _ _ _ _ He1 Ha) as (o1 & Ha1 & _ & Hks1 & _).
    destruct (IHks h1 h' o1 Ha1) as (He2 & Hrest); [|exact Hf|].
    { intros k0 Hk0. rewrite Hks1. apply Hks. by apply list_elem_of_further. }
    split; [by eapply escaping_trans|].
    intros k0 [->|Hk0]%elem_of_cons.
    + split.
      * eapply escaped_at_after; [|exact He2].
        intros o0 s Ha0 Hk0 Hne. rewrite Ha in Ha0. inversion Ha0; subst o0.
        assert (get_prop h (ref a) k = text s) as Hnode.
        { simpl. by rewrite Ha, Hk0. }
        by apply (Htext s a P k Hnode eq_refl eq_refl o s).
      * intros b kb Hr. eapply escaped_at_after; [|exact He2]. by apply Hbelow.
    + destruct (Hrest k0 Hk0) as (Hat & Hbel). split.
      * by eapply escaped_at_before.
      * intros b kb Hr. eapply escaped_at_before; [exact He1|].
        apply Hbel. destruct (reaches_is_ref _ _ _ _ _ Hr) as [c Hc].
        rewrite (get_prop_escaping_ref _ _ _ _ _ He1 Hc).
        rewrite Hc in Hr. by eapply reaches_escaping.
Qed.

Local Ltac prim Hw :=
  rewrite walker_primitive in Hw by done; inversion Hw; subst;
  apply visit_nothing; [done|];
  let Hr := fresh "Hr" in
  intros ? ? Hr; apply reaches_is_ref in Hr as [? ?]; discriminate.

Lemma walker_sound fuel : forall P key node h h' v',
  in_place P key node h ->
  walker esc fuel P key node h = Some (h', v') ->
  visit_ok escape P key node h h' v'.
Proof.
  induction fuel as [|fuel IH]; intros P key node h h' v' Hin Hw.
  - destruct node as [| |bb|nn|s|a];
      [prim Hw|prim Hw|prim Hw|prim Hw| |].
    + rewrite walker_text in Hw. inversion Hw; subst. by apply visit_text.
    + rewrite walker_ref in Hw.
      destruct (h !! a) as [o|] eqn:Ha.
      * destruct (decide (a ∈ P)) as [HaP|HaP]; [|done].
        inversion Hw; subst. apply visit_nothing; [done|].
        intros b kb Hr. inversion Hr; subst; contradiction.
      * inversion Hw; subst. apply visit_nothing; [done|].
        intros b kb Hr. inversion Hr; congruence.
  - destruct node as [| |bb|nn|s|a];
      [prim Hw|prim Hw|prim Hw|prim Hw| |].
    + rewrite walker_text in Hw. inversion Hw; subst. by apply visit_text.
    + rewrite walker_ref in Hw.
      destruct (h !! a) as [o|] eqn:Ha.
      * destruct (decide (a ∈ P)) as [HaP|HaP].
        { inversion Hw; subst. apply visit_nothing; [done|].
          intros b kb Hr. inversion Hr; subst; contradiction. }
        destruct (foldl _ _ _) as [h1|] eqn:Hf; [|done].
        simpl in Hw. inversion Hw; subst h1 v'. clear Hw.
        destruct (children_sound fuel a P IH (keys o) h h' o Ha
                    (fun _ H => H) Hf) as (He & Hkeys).
        split; [exact He|]. split; [done|]. split; [|done].
        intros b kb Hr. inversion Hr as [? ? o0 ? _ Ha0 Hkb | ? ? o0 k v ? ? _ Ha0 Hk Hr']; subst.
        -- rewrite Ha in Ha0. inversion Ha0; subst o0.
           exact (proj1 (Hkeys kb Hkb)).
        -- rewrite Ha in Ha0. inversion Ha0; subst o0.
           assert (k ∈ keys o) as Hk' by (by eapply assoc_get_Some_keys).
           apply (proj2 (Hkeys k Hk')). simpl. by rewrite Ha, Hk.
      * inversion Hw; subst. apply visit_nothing; [done|].
        intros b kb Hr. inversion Hr; congruence.
Qed.

End EscapingPass.

(** *** The walk ends *)

Section WalkEnds.

Variable cb : TraverseContext -> value -> option value.

Lemma set_prop_dom h a k x : dom (set_prop h a k x) = dom h.
Proof.
  unfold set_prop. destruct (h !! a) as [o|] eqn:Ha; [|done].
  rewrite dom_insert_L. apply elem_of_dom_2 in Ha. set_solver.
Qed.

Lemma update_dom P key x h : dom (update P key x h) = dom h.
Proof.
  unfold update. destruct P as [|p P]; [done|].
  destruct key as [k|]; [|done]. apply set_prop_dom.
Qed.

Lemma children_dom fuel a P :
  (forall P key node h h' v',
      walker cb fuel P key node h = Some (h', v') -> dom h' = dom h) ->
  forall ks h h',
    foldl (fun acc k =>
             h ← acc;
             fst <$> walker cb fuel (a :: P) (Some k)
                       (get_prop h (ref a) k) h)
      (Some h) ks = Some h' ->
    dom h' = dom h.
Proof.
  intros IH. induction ks as [|k ks IHks]; intros h h' Hf.
  - simpl in Hf. by inversion Hf.
  - change (foldl ?f (Some h) (k :: ks))
      with (foldl f (fst <$> walker cb fuel (a :: P) (Some k)
                               (get_prop h (ref a) k) h) ks) in Hf.
    destruct (walker cb fuel (a :: P) (Some k) (get_prop h (ref a) k) h)
      as [[h1 v1]|] eqn:Hw.
    + change (fst <$> Some (h1, v1)) with (Some h1) in Hf.
      rewrite (IHks _ _ Hf). by eapply IH.
    + rewrite foldl_None in Hf by done. discriminate.
Qed.

Lemma walker_dom fuel : forall P key node h h' v',
  walker cb fuel P key node h = Some (h', v') -> dom h' = dom h.
Proof.
  induction fuel as [|fuel IH]; intros P key node h h' v' Hw; simpl in Hw.
  - destruct (cb _ node) as [x|].
    + destruct x as [| | | | |a]; try (inversion Hw; subst; apply update_dom).
      destruct (update P key (ref a) h !! a);
        [destruct (decide (a ∈ P)); [|done]|];
        inversion Hw; subst; apply update_dom.
    + destruct node as [| | | | |a]; try (by inversion Hw).
      destruct (h !! a); [destruct (decide (a ∈ P)); [|done]|];
        by inversion Hw.
  - destruct (cb _ node) as [x|].
    + destruct x as [| | | | |a]; try (inversion Hw; subst; apply update_dom).
      destruct (update P key (ref a) h !! a);
        [destruct (decide (a ∈ P))|];
        try (inversion Hw; subst; apply update_dom).
      destruct (foldl _ _ _) as [h1|] eqn:Hf; [|done].
      simpl in Hw. inversion Hw; subst.
      rewrite (children_dom fuel a P IH _ _ _ Hf). apply update_dom.
    + destruct node as [| | | | |a]; try (by inversion Hw).
      destruct (h !! a); [destruct (decide (a ∈ P))|];
        try (by inversion Hw).
      destruct (foldl _ _ _) as [h1|] eqn:Hf; [|done].
      simpl in Hw. inversion Hw; subst.
      by rewrite (children_dom fuel a P IH _ _ _ Hf).
Qed.

Lemma unvisited_shrinks (h : heap) a P :
  a ∈ dom h -> a ∉ P ->
  (size (dom h ∖ list_to_set (a :: P)) < size (dom h ∖ list_to_set P))%nat.
Proof.
  intros Ha HP. apply subset_size. simpl.
  assert (a ∉ (list_to_set P : gset addr))
    by (by rewrite elem_of_list_to_set).
  set_solver.
Qed.

Lemma children_total fuel a P :
  (forall P key node h,
      (size (dom h ∖ list_to_set P) <= fuel)%nat ->
      is_Some (walker cb fuel P key node h)) ->
  forall ks h,
    (size (dom h ∖ list_to_set (a :: P)) <= fuel)%nat ->
    is_Some
      (foldl (fun acc k =>
                h ← acc;
                fst <$> walker cb fuel (a :: P) (Some k)
                          (get_prop h (ref a) k) h)
         (Some h) ks).
Proof.
  intros IH. induction ks as [|k ks IHks]; intros h Hsz.
  - by eexists.
  - change (foldl ?f (Some h) (k :: ks))
      with (foldl f (fst <$> walker cb fuel (a :: P) (Some k)
                               (get_prop h (ref a) k) h) ks).
    destruct (IH (a :: P) (Some k) (get_prop h (ref a) k) h Hsz)
      as [[h1 v1] Hw].
    rewrite Hw. change (fst <$> Some (h1, v1)) with (Some h1).
    apply IHks. by rewrite (walker_dom _ _ _ _ _ _ _ Hw).
Qed.

Lemma walker_unfold fuel P key node_ h :
  walker cb fuel P key node_ h
  = let '(h, node) :=
      match cb {| isLeaf := leaf h node_; key := key;
                  isRoot := match P with [] => true | _ => false end |}
              node_ with
      | Some x => (update P key x h, x)
      | None => (h, node_)
      end in
    match node with
    | ref a =>
        match h !! a with
        | Some o =>
            if decide (a ∈ P) then Some (h, node)
            else
              match fuel with
              | O => None
              | S fuel' =>
                  h' ← foldl
                         (fun acc k =>
                            h ← acc;
                            fst <$> walker cb fuel' (a :: P) (Some k)
                                      (get_prop h (ref a) k) h)
                         (Some h) (keys o);
                  Some (h', node)
              end
        | None => Some (h, node)
        end
    | _ => Some (h, node)
    end.
Proof. destruct fuel; reflexivity. Qed.

Lemma walker_total fuel : forall P key node h,
  (size (dom h ∖ list_to_set P) <= fuel)%nat ->
  is_Some (walker cb fuel P key node h).
Proof.
  induction fuel as [|fuel IH]; intros P key node h Hsz;
    rewrite walker_unfold.
  - destruct (cb _ node) as [x|].
    + destruct x as [| | | | |a]; try by eexists.
      destruct (update P key (ref a) h !! a) eqn:Ha; [|by eexists].
      destruct (decide (a ∈ P)) as [HaP|HaP]; [by eexists|].
      apply elem_of_dom_2 in Ha.
      pose proof (unvisited_shrinks _ _ _ Ha HaP) as Hlt.
      rewrite update_dom in Hlt. lia.
    + destruct node as [| | | | |a]; try by eexists.
      destruct (h !! a) eqn:Ha; [|by eexists].
      destruct (decide (a ∈ P)) as [HaP|HaP]; [by eexists|].
      apply elem_of_dom_2 in Ha.
      pose proof (unvisited_shrinks _ _ _ Ha HaP) as Hlt. lia.
  - destruct (cb _ node) as [x|].
    + destruct x as [| | | | |a]; try by eexists.
      destruct (update P key (ref a) h !! a) as [o|] eqn:Ha; [|by eexists].
      destruct (decide (a ∈ P)) as [HaP|HaP]; [by eexists|].
      apply elem_of_dom_2 in Ha.
      pose proof (unvisited_shrinks _ _ _ Ha HaP) as Hlt.
      destruct (children_total fuel a P IH (keys o) (update P key (ref a) h))
        as [h1 ->]; [|by eexists].
      rewrite update_dom in Hlt |- *. lia.
    + destruct node as [| | | | |a]; try by eexists.
      destruct (h !! a) as [o|] eqn:Ha; [|by eexists].
      destruct (decide (a ∈ P)) as [HaP|HaP]; [by eexists|].
      apply elem_of_dom_2 in Ha.
      pose proof (unvisited_shrinks _ _ _ Ha HaP) as Hlt.
      destruct (children_total fuel a P IH (keys o) h) as [h1 ->];
        [lia|by eexists].
Qed.

Lemma forEach_total h root : is_Some (forEach cb h root).
Proof.
  apply walker_total. rewrite <- size_dom. apply subseteq_size. set_solver.
Qed.

End WalkEnds.

(** ** What formatPkg returns *)

Section Documents.

Variable escape : string -> string.

(** The pass over a document: every string that is the value of a
    property of an object of the result was a string before; under the
    key [readme] it is that string, under any other key it is that
    string escaped, once for every way the walk came by it. *)
Lemma forEach_escapes h a h' root' b o' k s' :
  forEach (maybeEscape escape) h (ref a) = Some (h', root') ->
  reachable h' (ref a) b -> h' !! b = Some o' ->
  assoc_get k (props o') = Some (text s') ->
  root' = ref a
  /\ exists o s,
       h !! b = Some o /\ assoc_get k (props o) = Some (text s)
       /\ if decide (k = "readme"%string) then s' = s
          else exists n, s' = Nat.iter (S n) escape s.
Proof.
  intros Hw Hr Hb Hk.
  destruct (walker_sound escape (size h) [] None (ref a) h h' root') as
    (He & _ & Hbelow & Hroot); [by intros ? ? ? [=]|exact Hw|].
  split; [exact (Hroot a eq_refl)|].
  destruct (escaping_lookup_inv _ _ _ _ _ He Hb) as (o & Ho & _ & Hks & Hv).
  exists o. specialize (Hv k). rewrite Hk in Hv.
  destruct (assoc_get k (props o)) as [v|] eqn:Hko; [|done].
  destruct v as [| | | |s|];
    try (apply escaped_from_not_text in Hv; [|done]; discriminate).
  exists s. repeat split; [done|]. unfold escaped_from in Hv.
  destruct (decide (k = "readme"%string)) as [Hkr|Hkr]; [congruence|].
  assert (reaches h [] (ref a) b k) as Hreach.
  { apply (reachable_reaches escape h (ref a) b o k); [|exact Ho|].
    - by apply (reachable_escaping_inv escape h h').
    - apply (assoc_get_Some_keys k (props o) (text s) Hko). }
  destruct (Hbelow _ _ Hreach o s Ho Hko Hkr) as (o2 & n & Ho2 & Hn).
  rewrite Hb in Ho2. inversion Ho2; subst o2. rewrite Hk in Hn.
  inversion Hn. by exists n.
Qed.

End Documents.

Lemma prefix_empty s : String.prefix "" s = true.
Proof. by destruct s. Qed.

(** escape-html leaves nothing to escape. *)
Lemma html_escaped_escape_html s : html_escaped (escape_html s) = true.
Proof.
  induction s as [|c s IH]; [done|].
  change (escape_html (String c s)) with (escape_char c +:+ escape_html s).
  unfold escape_char.
  destruct (Ascii.eqb c "034") eqn:E1; [simpl; rewrite prefix_empty; exact IH|].
  destruct (Ascii.eqb c "&") eqn:E2; [simpl; rewrite prefix_empty; exact IH|].
  destruct (Ascii.eqb c "'") eqn:E3; [simpl; rewrite prefix_empty; exact IH|].
  destruct (Ascii.eqb c "<") eqn:E4; [simpl; rewrite prefix_empty; exact IH|].
  destruct (Ascii.eqb c ">") eqn:E5; [simpl; rewrite prefix_empty; exact IH|].
  change (html_escaped (String c (escape_html s)) = true).
  cbn [html_escaped]. by rewrite E1, E2, E3, E4, E5.
Qed.

(** C10.  When formatPkg returns a document, every string that is the
    value of a property of an object of that document was a string when
    truncatePackage handed the document over; under the key [readme] it
    is that string, untouched; under any other key it is that string
    passed through escape-html (once for every property through which the
    walk reaches the object that holds it), and so has none of the
    characters escape-html replaces left in it. *)
Theorem formatPkg_escapes_all_but_readme
    (sizeof : heap -> value -> Z)
    (truncate_bytes : string -> Qcanon.Qc -> string)
    (maxObjSize : Z) (toPropertyKey : heap -> value -> string)
    (rawPkg_of : heap -> value -> heap * Result (option value))
    (h : heap) (pkg : value) (h' : heap) (doc : value)
    (b : addr) (o' : object) (k s' : string) :
  formatPkg escape_html sizeof truncate_bytes maxObjSize toPropertyKey
    rawPkg_of h pkg = Some (h', ok doc) ->
  doc <> undefined -> doc <> null ->
  reachable h' doc b -> h' !! b = Some o' ->
  assoc_get k (props o') = Some (text s') ->
  exists h1 rawPkg h2 o s,
    rawPkg_of h pkg = (h1, ok (Some rawPkg))
    /\ truncatePackage sizeof truncate_bytes maxObjSize toPropertyKey h1
         rawPkg
       = (h2, ok doc)
    /\ h2 !! b = Some o
    /\ assoc_get k (props o) = Some (text s)
    /\ if decide (k = "readme"%string) then s' = s
       else (exists n, s' = Nat.iter (S n) escape_html s)
            /\ html_escaped s' = true.
Proof.
  intros Hf _ _ Hr Hb Hk. unfold formatPkg in Hf.
  destruct (rawPkg_of h pkg) as [h1 [[rawPkg|]|e]] eqn:Hraw.
  2:{ inversion Hf; subst. inversion Hr. }
  2:{ discriminate. }
  destruct (truncatePackage _ _ _ _ h1 rawPkg) as [h2 [truncated|e]] eqn:Ht;
    [|discriminate].
  destruct (forEach (maybeEscape escape_html) h2 truncated)
    as [[h3 document]|] eqn:Hwalk; [|discriminate].
  assert (h3 = h' /\ document = doc) as [-> ->] by (by inversion Hf).
  clear Hf. rename Hwalk into Hf.
  assert (exists a, doc = ref a) as [a ->] by (inversion Hr; by eexists).
  assert (truncated = ref a) as ->.
  { unfold forEach in Hf.
    destruct truncated as [| | | |s|a0];
      try (rewrite walker_primitive in Hf by done; by inversion Hf).
    - rewrite walker_text in Hf. simpl in Hf. by inversion Hf.
    - destruct (walker_sound escape_html (size h2) [] None (ref a0) h2 h'
                  (ref a))
        as (_ & _ & _ & Hroot); [by intros ? ? ? [=]|exact Hf|].
      by rewrite (Hroot a0 eq_refl). }
  destruct (forEach_escapes escape_html _ _ _ _ _ _ _ _ Hf Hr Hb Hk)
    as (_ & o & s & Ho & Hko & Hs).
  exists h1, rawPkg, h2, o, s. repeat split; try done.
  destruct (decide (k = "readme"%string)) as [?|Hkr]; [done|].
  split; [done|]. destruct Hs as [m ->]. simpl.
  apply html_escaped_escape_html.
Qed.

Lemma formatPkg_escapes_all_but_readme_witness :
  exists h1 rawPkg h2 o s,
    (example_heap, ok (Some (ref 0%nat))) = (h1, ok (Some rawPkg))
    /\ truncatePackage (fun _ _ => 0) (fun _ _ => ""%string) 1
         (fun _ _ => ""%string) h1 rawPkg = (h2, ok (ref 2%nat))
    /\ h2 !! 1%nat = Some o
    /\ assoc_get "name" (props o) = Some (text s)
    /\ if decide ("name"%string = "readme"%string)
       then "R&amp;amp;D"%string = s
       else (exists n, "R&amp;amp;D"%string = Nat.iter (S n) escape_html s)
            /\ html_escaped "R&amp;amp;D" = true.
Proof.
  apply (formatPkg_escapes_all_but_readme
           (fun _ _ => 0) (fun _ _ => ""%string) 1 (fun _ _ => ""%string)
           (fun h pkg => (h, ok (Some pkg)))
           example_heap (ref 0%nat) example_document.1 (ref 2%nat) 1%nat
           {| is_array := false;
              props := [("name"%string, text "R&amp;amp;D");
                        ("link"%string,
                         text "https://www.npmjs.com/~R%26D")] |}
           "name" "R&amp;amp;D").
  - vm_compute. reflexivity.
  - discriminate.
  - discriminate.
  - apply (reachable_prop _ 2%nat
             {| is_array := false;
                props := [("name"%string, text "a&lt;b");
                          ("readme"%string, text "<h1>T&C</h1>");
                          ("owner"%string, ref 1%nat);
                          ("lastPublisher"%string, ref 1%nat)] |}
             "owner" (ref 1%nat) 1%nat).
    + vm_compute. reflexivity.
    + reflexivity.
    + apply reachable_root.
  - vm_compute. reflexivity.
  - reflexivity.
Defined.

(** * Further properties of the code *)

Import WatchLog.

(** ** utils/wait.ts and the retry chain *)

Lemma bo_monotone a b p m :
  0 <= a <= b -> 0 <= p -> Wait.bo a p m <= Wait.bo b p m.
Proof.
  intros Hab Hp. unfold Wait.bo. apply Z.min_le_compat_r.
  apply Z.mul_le_mono_nonneg_r; [lia|].
  apply Z.pow_le_mono_l. lia.
Qed.

Lemma bo_le_cap a p m : Wait.bo a p m <= m.
Proof. unfold Wait.bo. lia. Qed.

Lemma counters_sorted r n : Sorted Z.le (counters r n).
Proof.
  revert r. induction n as [|n IH]; intros r; simpl; [constructor|].
  constructor; [apply IH|]. destruct n; simpl; constructor. lia.
Qed.

Lemma counters_lower r n : Forall (fun a => r < a) (counters r n).
Proof.
  revert r. induction n as [|n IH]; intros r; simpl; constructor; [lia|].
  eapply Forall_impl; [apply IH|]. simpl. intros. lia.
Qed.

Lemma bo_counters_sorted r n p m :
  0 <= r -> 0 <= p ->
  Sorted Z.le ((fun a => Wait.bo a p m) <$> counters r n).
Proof.
  revert r. induction n as [|n IH]; intros r Hr Hp; simpl; [constructor|].
  constructor; [apply IH; lia|].
  destruct n; simpl; constructor. apply bo_monotone; lia.
Qed.

(** X1.  Along the retries of one change the waits never decrease and
    never exceed the cap: in every run in which the write fails with
    [errs] in turn and then succeeds, the delays of the timers armed are
    sorted and each is at most [retryBackoffMax] (the exponent being
    non-negative). *)
Theorem waits_grow_up_to_the_cap
    (config : Config) (c : Change.t) (s s' : State)
    (errs : list Err) (evs : list Event) :
  0 <= retryBackoffPow config ->
  falsy (Change.id c) = false ->
  paused s = false -> forwarding s = [] ->
  List.filter foreground evs = fails_then_succeeds errs ->
  run config s (on_change c :: evs) = Some s' ->
  exists cs,
    calls s' = calls s ++ cs
    /\ length (waits cs) = length errs
    /\ Sorted Z.le (waits cs)
    /\ Forall (fun w => w <= retryBackoffMax config) (waits cs).
Proof.
  intros Hpow Hid Hp Hf Hs Hr.
  destruct (change_run config c s errs true evs s' Hid Hp Hf Hs Hr)
    as (cs & Hc & Hfc & _).
  eexists. split; [exact Hc|].
  assert (waits ([changesReader_pause; saveObject (queueObject c);
                  fetchQueueLength; stateManager_save (Change.seq c)] ++ cs)
          = (fun a => Wait.bo a (retryBackoffPow config)
                        (retryBackoffMax config))
              <$> counters 0 (length errs)) as ->.
  { rewrite waits_app, <- (waits_forwarding cs), Hfc, waits_app,
      waits_retry_calls. simpl. by rewrite app_nil_r. }
  split; [|split].
  - rewrite length_fmap. clear. generalize 0.
    induction (length errs) as [|n IH]; intros r; simpl; [done|].
    by rewrite IH.
  - apply bo_counters_sorted; [lia|done].
  - apply Forall_fmap, Forall_forall. intros a _. apply bo_le_cap.
Qed.

Lemma waits_grow_up_to_the_cap_witness :
  exists cs,
    calls example_final = calls listening ++ cs
    /\ length (waits cs) = 1%nat
    /\ Sorted Z.le (waits cs)
    /\ Forall (fun w => w <= 30000) (waits cs).
Proof.
  apply (waits_grow_up_to_the_cap example_config example_change listening
           example_final ["ETIMEDOUT"%string] (tail example_run));
    (reflexivity || (simpl; lia)).
Defined.

(** ** What reaches the error tracker, the state manager and the reader *)

Lemma step_accounting config s ev s' :
  step config s ev = Some s' ->
  reports (calls s') = reports (calls s) ++ option_list (report_of ev)
  /\ checkpoints (calls s') = checkpoints (calls s) ++ processed [ev]
  /\ length (queue_length_fetches (calls s'))
     = (length (queue_length_fetches (calls s)) + length (processed [ev]))%nat
  /\ (length (pauses (calls s')) + length (resumes (calls s))
      + length (forwarding s)
      = length (pauses (calls s)) + length (resumes (calls s'))
        + length (forwarding s'))%nat
  /\ totalSequence s' = default (totalSequence s) (last (ticks [ev])).
Proof.
  intros Hst.
  assert (forall cs, reports (calls s ++ cs) = reports (calls s) ++ reports cs)
    as Hrep by (intros; apply omap_app).
  assert (forall cs, length (pauses (calls s ++ cs))
                     = (length (pauses (calls s)) + length (pauses cs))%nat)
    as Hpau by (intros; unfold pauses; by rewrite List.filter_app, length_app).
  assert (forall cs, length (resumes (calls s ++ cs))
                     = (length (resumes (calls s)) + length (resumes cs))%nat)
    as Hres by (intros; unfold resumes; by rewrite List.filter_app, length_app).
  assert (forall cs, length (queue_length_fetches (calls s ++ cs))
                     = (length (queue_length_fetches (calls s))
                        + length (queue_length_fetches cs))%nat)
    as Hql by (intros; unfold queue_length_fetches;
               by rewrite List.filter_app, length_app).
  destruct ev as [c|err|i r|i|i r|i r|z]; simpl in Hst.
  - destruct (paused s); [discriminate|]. inversion Hst; subst s'.
    unfold change_listener, processed. simpl.
    destruct (falsy (Change.id c)); simpl.
    + rewrite !app_nil_r. repeat split; lia.
    + rewrite <- !app_assoc, Hrep, checkpoints_app, Hpau, Hres, Hql.
      simpl. rewrite app_nil_r, length_app. simpl. repeat split; lia.
  - inversion Hst; subst s'. simpl.
    rewrite Hrep, checkpoints_app, Hpau, Hres, Hql. simpl.
    rewrite !app_nil_r. repeat split; lia.
  - destruct (forwarding s !! i) as [[c [retry|?]]|] eqn:Hi; try discriminate.
    pose proof (lookup_lt_Some _ _ _ Hi) as Hlt.
    destruct r as [err|]; inversion Hst; subst s'; simpl;
      rewrite Hrep, checkpoints_app, Hpau, Hres, Hql; simpl;
      rewrite ?app_nil_r, ?length_insert, ?length_delete by done;
      repeat split; lia.
  - destruct (forwarding s !! i) as [[c [?|retry]]|] eqn:Hi; try discriminate.
    inversion Hst; subst s'; simpl.
    rewrite Hrep, checkpoints_app, Hpau, Hres, Hql. simpl.
    rewrite !app_nil_r, length_insert. repeat split; lia.
  - destruct (progress s !! i) as [sq|]; [|discriminate].
    destruct r as [e|q]; inversion Hst; subst s'; simpl.
    + rewrite !app_nil_r. repeat split; lia.
    + rewrite Hrep, checkpoints_app, Hpau, Hres, Hql. simpl.
      rewrite !app_nil_r. repeat split; lia.
  - destruct (saving s !! i) as [sq|]; [|discriminate].
    destruct r as [e|]; inversion Hst; subst s'; simpl.
    + rewrite Hrep, checkpoints_app, Hpau, Hres, Hql. simpl.
      rewrite !app_nil_r. repeat split; lia.
    + rewrite !app_nil_r. repeat split; lia.
  - inversion Hst; subst s'. simpl. rewrite !app_nil_r. repeat split; lia.
Qed.

Lemma run_accounting config evs : forall s s',
  run config s evs = Some s' ->
  reports (calls s') = reports (calls s) ++ omap report_of evs
  /\ checkpoints (calls s') = checkpoints (calls s) ++ processed evs
  /\ length (queue_length_fetches (calls s'))
     = (length (queue_length_fetches (calls s)) + length (processed evs))%nat
  /\ (length (pauses (calls s')) + length (resumes (calls s))
      + length (forwarding s)
      = length (pauses (calls s)) + length (resumes (calls s'))
        + length (forwarding s'))%nat
  /\ totalSequence s' = default (totalSequence s) (last (ticks evs)).
Proof.
  induction evs as [|ev evs IH]; intros s s' Hr; simpl in Hr.
  - inversion Hr; subst s'. simpl. rewrite !app_nil_r. repeat split; lia.
  - destruct (step config s ev) as [s1|] eqn:Hst; [|discriminate].
    destruct (step_accounting _ _ _ _ Hst) as (R1 & C1 & Q1 & P1 & T1).
    destruct (IH _ _ Hr) as (R2 & C2 & Q2 & P2 & T2).
    change (ev :: evs) with ([ev] ++ evs).
    unfold processed, ticks in *. rewrite !omap_app, !length_app.
    rewrite R2, R1, C2, C1, <- !app_assoc.
    assert (omap report_of [ev] = option_list (report_of ev)) as ->
      by (simpl; by destruct (report_of ev)).
    repeat split; try done; try lia.
    rewrite T2, T1.
    destruct ev; simpl; try done.
    match goal with
    | |- context [last (omap ?f evs)] => destruct (omap f evs) as [|z l]
    end; simpl; [done|].
    assert (is_Some (last (z :: l))) as [x ->] by (by apply last_is_Some).
    done.
Qed.

(** X2.  The error tracker hears of exactly two things, in the order in
    which they happen: errors of the reader, and rejected checkpoint
    saves.  Failed writes to the queue and failed fetches of the queue
    length never reach it. *)
Theorem reports_are_reader_errors_and_failed_checkpoints
    (config : Config) (evs : list Event) (s : State) :
  run config listening evs = Some s ->
  reports (calls s) = omap report_of evs.
Proof.
  intros Hr. by destruct (run_accounting config evs listening s Hr) as (-> & _).
Qed.

Lemma reports_are_reader_errors_and_failed_checkpoints_witness :
  reports (calls example_final) = omap report_of example_run.
Proof.
  apply (reports_are_reader_errors_and_failed_checkpoints example_config).
  reflexivity.
Defined.

(** X3.  One checkpoint save and one fetch of the queue length are
    started for every change delivered with an id, and for nothing else;
    the checkpoints are written in the order of delivery, each with the
    sequence number of its change. *)
Theorem checkpoints_follow_deliveries
    (config : Config) (evs : list Event) (s : State) :
  run config listening evs = Some s ->
  checkpoints (calls s) = processed evs
  /\ length (queue_length_fetches (calls s)) = length (processed evs).
Proof.
  intros Hr.
  destruct (run_accounting config evs listening s Hr) as (_ & -> & -> & _).
  done.
Qed.

Lemma checkpoints_follow_deliveries_witness :
  checkpoints (calls example_final) = processed example_run
  /\ length (queue_length_fetches (calls example_final))
     = length (processed example_run).
Proof.
  apply (checkpoints_follow_deliveries example_config). reflexivity.
Defined.

(** X4.  Pauses and resumes balance: at any time the reader has been
    paused as many times as it has been resumed, plus once for the change
    in flight if there is one. *)
Theorem pauses_balance_resumes
    (config : Config) (evs : list Event) (s : State) :
  run config listening evs = Some s ->
  length (pauses (calls s))
  = (length (resumes (calls s)) + length (forwarding s))%nat
  /\ (length (forwarding s) <= 1)%nat.
Proof.
  intros Hr.
  destruct (run_accounting config evs listening s Hr) as (_ & _ & _ & H & _).
  simpl in H. split; [lia|].
  by destruct (sequential_run config evs listening s sequential_listening Hr).
Qed.

Lemma pauses_balance_resumes_witness :
  length (pauses (calls example_unsettled))
  = (length (resumes (calls example_unsettled))
     + length (forwarding example_unsettled))%nat
  /\ (length (forwarding example_unsettled) <= 1)%nat.
Proof.
  apply (pauses_balance_resumes example_config example_unsettled_run).
  reflexivity.
Defined.

(** X5.  [logProgress] works from the cached [totalSequence]: when the
    queue length arrives, the total it sends to the metrics and logs is the
    last value the interval callback stored, 0 as long as it stored none,
    whatever the sequence number of the change; the remaining count logged
    is that total minus the sequence number. *)
Theorem progress_uses_cached_total
    (config : Config) (evs : list Event) (s : State) (i : nat)
    (seq queueLength : Z) :
  run config listening evs = Some s ->
  progress s !! i = Some seq ->
  exists s',
    step config s (fetchQueueLength_settled i (inr queueLength)) = Some s'
    /\ calls s'
       = calls s
         ++ [datadog_gauge "sequence.total" (default 0 (last (ticks evs)));
             datadog_gauge "sequence.current" seq;
             log_info
               [str "[progress] Synced %d/%d changes (%s%) (%s remaining) (%s in queue)";
                num seq; num (default 0 (last (ticks evs)));
                percent seq (default 0 (last (ticks evs)));
                num (default 0 (last (ticks evs)) - seq);
                num queueLength]]
    /\ progress s' = delete i (progress s)
    /\ forwarding s' = forwarding s /\ paused s' = paused s.
Proof.
  intros Hr Hi.
  destruct (run_accounting config evs listening s Hr) as (_ & _ & _ & _ & HT).
  simpl in HT. simpl. rewrite Hi. eexists. split; [reflexivity|].
  simpl. rewrite HT. done.
Qed.

Lemma progress_uses_cached_total_witness :
  exists s',
    step example_config
      (default listening
         (run example_config listening
            [info_tick 7; on_change example_change; info_tick 99]))
      (fetchQueueLength_settled 0 (inr 5)) = Some s'
    /\ progress s' = [].
Proof.
  destruct (progress_uses_cached_total example_config
              [info_tick 7; on_change example_change; info_tick 99]
              (default listening
                 (run example_config listening
                    [info_tick 7; on_change example_change; info_tick 99]))
              0 42 5 eq_refl eq_refl) as (s' & Hst & _ & Hp & _).
  exists s'. split; [exact Hst | exact Hp].
Defined.

(** ** Watch.stop *)

Lemma attempted_until_first_failure l :
  until_first_failure l
  = attempted l
    ++ match first_failure l with
       | Some err => [sentry_report err []]
       | None => []
       end.
Proof.
  induction l as [|[c [|err]] l IH]; simpl; [done| |done]. by rewrite IH.
Qed.

Lemma attempted_prefix l : attempted l `prefix_of` l.*1.
Proof.
  induction l as [|[c [|err]] l IH]; simpl.
  - done.
  - by apply prefix_cons.
  - apply prefix_cons, prefix_nil.
Qed.

Lemma attempted_all l : first_failure l = None -> attempted l = l.*1.
Proof.
  induction l as [|[c [|err]] l IH]; simpl; intros H; [done| |done].
  by rewrite IH.
Qed.

Lemma reports_attempted reader_stop this :
  reports (attempted (guarded_calls reader_stop this)) = [].
Proof.
  unfold guarded_calls.
  destruct this as [rd [[[[|e1]|]]|] [[[[|e2]|]]|] [[[[|e3]|]]|]];
    destruct reader_stop as [|e0]; reflexivity.
Qed.

(** X6.  [stop()] reports at most one failure, the first: whatever the
    indexers after it would have done.  The guarded calls it makes are a
    prefix of the calls it was to make (the reader, then the indexers that
    have a [stop] method, in the order one-time, periodic, main), and all
    of them when none throws, in which case nothing is reported.  After
    them [removeAllListeners] is called exactly when the reader is set and
    has the method, and the last log line follows in every case. *)
Theorem stop_reports_the_first_failure_only
    (reader_stop : Outcome) (this : Watch.t) :
  stop reader_stop this
  = [log_info [str "Stopping Watch..."]]
    ++ attempted (guarded_calls reader_stop this)
    ++ match first_failure (guarded_calls reader_stop this) with
       | Some err => [sentry_report err []]
       | None => []
       end
    ++ match changesReader this with
       | Some reader =>
           if has_removeAllListeners reader then [removeAllListeners]
           else []
       | None => []
       end
    ++ [log_info [str "Stopped Watch gracefully"]]
  /\ reports (stop reader_stop this)
     = match first_failure (guarded_calls reader_stop this) with
       | Some err => [(err, [])]
       | None => []
       end
  /\ attempted (guarded_calls reader_stop this)
     `prefix_of` (guarded_calls reader_stop this).*1
  /\ match first_failure (guarded_calls reader_stop this) with
     | Some _ => True
     | None =>
         attempted (guarded_calls reader_stop this)
         = (guarded_calls reader_stop this).*1
     end.
Proof.
  assert (remove_listeners this
          = match changesReader this with
            | Some reader =>
                if has_removeAllListeners reader then [removeAllListeners]
                else []
            | None => []
            end) as Hremove.
  { unfold remove_listeners. by destruct (changesReader this) as [[[|]]|]. }
  assert (stop reader_stop this
          = [log_info [str "Stopping Watch..."]]
            ++ attempted (guarded_calls reader_stop this)
            ++ match first_failure (guarded_calls reader_stop this) with
               | Some err => [sentry_report err []]
               | None => []
               end
            ++ remove_listeners this
            ++ [log_info [str "Stopped Watch gracefully"]]) as Hstop.
  { rewrite stop_until_first_failure.
    by rewrite attempted_until_first_failure, <- !app_assoc. }
  split; [by rewrite <- Hremove|]. split; [|split].
  - rewrite Hstop. unfold reports. rewrite !omap_app.
    fold (reports (attempted (guarded_calls reader_stop this))).
    rewrite reports_attempted.
    assert (omap (fun c => match c with
                           | sentry_report err ctx => Some (err, ctx)
                           | _ => None
                           end) (remove_listeners this) = []) as ->.
    { unfold remove_listeners. by destruct (changesReader this) as [[[|]]|]. }
    destruct (first_failure _); reflexivity.
  - apply attempted_prefix.
  - destruct (first_failure _) eqn:E; [done|]. by apply attempted_all.
Qed.

(** ** formatPkg.js: truncatePackage and the escaping pass *)

Import Truncate.

Lemma unchanged_on_refl D h : unchanged_on D h h.
Proof. by intros a _. Qed.

Lemma unchanged_on_trans D h1 h2 h3 :
  unchanged_on D h1 h2 -> unchanged_on D h2 h3 -> unchanged_on D h1 h3.
Proof. intros H12 H23 a Ha. by rewrite H23, H12. Qed.

Lemma unchanged_on_dom D h h' :
  D ⊆ dom h -> unchanged_on D h h' -> D ⊆ dom h'.
Proof.
  intros HD Hu a Ha. apply elem_of_dom. rewrite (Hu a Ha).
  apply elem_of_dom. by apply HD.
Qed.

Lemma alloc_unchanged D h o :
  D ⊆ dom h -> unchanged_on D h (alloc h o).1.
Proof.
  intros HD a Ha. simpl. apply lookup_insert_ne.
  intros <-. apply HD in Ha. by apply is_fresh in Ha.
Qed.

Lemma alloc_ref h o : (alloc h o).2 = ref (fresh (dom h)).
Proof. done. Qed.

Lemma alloc_dom h o : dom h ⊆ dom (alloc h o).1.
Proof. simpl. rewrite dom_insert. set_solver. Qed.

Lemma assign_unchanged D h b k x :
  b ∉ D -> unchanged_on D h (assign h (ref b) k x).
Proof.
  intros Hb a Ha. simpl. unfold set_prop.
  destruct (h !! b); [|done]. apply lookup_insert_ne. by intros <-.
Qed.

Lemma assign_dom h v k x : dom (assign h v k x) = dom h.
Proof. destruct v; try done. apply set_prop_dom. Qed.

Section TruncateFacts.

Variable sizeof : heap -> value -> Z.
Variable truncate_bytes : string -> Qcanon.Qc -> string.
Variable maxObjSize : Z.
Variable toPropertyKey : heap -> value -> string.

Lemma truncatePackage_blocks h pkg :
  truncatePackage sizeof truncate_bytes maxObjSize toPropertyKey h pkg
  = let '(h, smallerPkg) := alloc h (spread h pkg) in
    let '(h, block) :=
      cut_readme sizeof truncate_bytes maxObjSize h pkg smallerPkg in
    match block with
    | throw e => (h, throw e)
    | ok _ =>
        let '(h, block) :=
          drop_non_essential sizeof maxObjSize toPropertyKey h pkg
            smallerPkg in
        match block with
        | throw e => (h, throw e)
        | ok _ =>
            let '(h, smallerPkg) :=
              keep_name_and_readme sizeof maxObjSize h smallerPkg in
            give_up_if_too_big sizeof maxObjSize h smallerPkg
        end
    end.
Proof. reflexivity. Qed.

(** The first block: it throws exactly when the copy is over the limit
    and the readme of the package is not a string. *)
Lemma cut_readme_spec D h pkg b :
  b ∉ D ->
  unchanged_on D h
    (cut_readme sizeof truncate_bytes maxObjSize h pkg (ref b)).1
  /\ match (cut_readme sizeof truncate_bytes maxObjSize h pkg (ref b)).2
     with
     | throw e =>
         isTooBig (checkSize sizeof maxObjSize h (ref b)) = true
         /\ match pkg with
            | undefined | null => e = TypeError
            | _ =>
                (forall s, get_prop h pkg "readme" <> text s)
                /\ e = Error "Input must be string"
            end
     | ok _ =>
         (isTooBig (checkSize sizeof maxObjSize h (ref b)) = false
          /\ (cut_readme sizeof truncate_bytes maxObjSize h pkg (ref b)).1
             = h)
         \/ (isTooBig (checkSize sizeof maxObjSize h (ref b)) = true
             /\ read h pkg "versions"
                = ok (get_prop h pkg "versions")
             /\ exists s, get_prop h pkg "readme" = text s)
     end.
Proof.
  intros Hb. unfold cut_readme.
  destruct (isTooBig (checkSize sizeof maxObjSize h (ref b))) eqn:Hbig.
  2:{ split; [apply unchanged_on_refl|]. by left. }
  cbv zeta.
  destruct pkg as [| |x|n|s|a]; simpl;
    try (split; [apply unchanged_on_refl|done]).
  destruct (h !! a) as [o|]; [|split; [apply unchanged_on_refl|done]].
  destruct (default undefined (assoc_get "readme" (props o)))
    as [| |x|n|s|a'] eqn:Hreadme; simpl;
    try (split; [apply unchanged_on_refl|done]).
  split.
  - pose proof (assign_unchanged D h b "readme"
                  (text (truncate_bytes s
                           (Qcanon.Qcdiv
                              (Qc_of_Z
                                 (sizeof h (text s)
                                  - diff (checkSize sizeof maxObjSize h
                                            (ref b))
                                  - sizeof h (text " **TRUNCATED**")))
                              (Qc_of_Z 2))
                         +:+ " **TRUNCATED**")) Hb) as Hu.
    exact Hu.
  - right. split; [done|]. split; [done|]. by exists s.
Qed.

Lemma drop_non_essential_spec D h pkg b :
  b ∉ D -> D ⊆ dom h ->
  unchanged_on D h
    (drop_non_essential sizeof maxObjSize toPropertyKey h pkg (ref b)).1
  /\ (isTooBig (checkSize sizeof maxObjSize h (ref b)) = false ->
      drop_non_essential sizeof maxObjSize toPropertyKey h pkg (ref b)
      = (h, ok tt))
  /\ (forall h0,
        read h0 pkg "versions" = ok (get_prop h0 pkg "versions") ->
        (drop_non_essential sizeof maxObjSize toPropertyKey h pkg
           (ref b)).2 = ok tt).
Proof.
  intros Hb HD. unfold drop_non_essential.
  destruct (isTooBig _); [|by split; [apply unchanged_on_refl|]].
  set (h1 := assign h (ref b) "readme" _).
  assert (unchanged_on D h h1) as U1 by (by apply assign_unchanged).
  assert (D ⊆ dom h1) as D1 by exact (unchanged_on_dom D h h1 HD U1).
  clearbody h1. cbv zeta.
  destruct (read h1 pkg "versions") as [pv|e] eqn:Hread.
  2:{ split; [exact U1|]. split; [done|]. intros h0 Hh0.
      destruct pkg; discriminate. }
  set (r2 := if truthy pv && truthy (get_prop h1 pkg "version")
             then _ else (h1, null)).
  assert (unchanged_on D h r2.1) as U2.
  { subst r2. destruct (_ && _).
    - eapply unchanged_on_trans; [exact U1|]. by apply alloc_unchanged.
    - exact U1. }
  destruct r2 as [h2 versions]. simpl in U2.
  assert (D ⊆ dom h2) as D2 by exact (unchanged_on_dom D h h2 HD U2).
  set (h3 := assign h2 (ref b) "versions" versions).
  assert (unchanged_on D h h3) as U3
    by (eapply unchanged_on_trans; [exact U2|]; by apply assign_unchanged).
  assert (D ⊆ dom h3) as D3 by exact (unchanged_on_dom D h h3 HD U3).
  clearbody h3.
  set (r4 := if truthy (get_prop h3 pkg "tags")
                && truthy (get_prop h3 (get_prop h3 pkg "tags") "latest")
             then _ else (h3, null)).
  assert (unchanged_on D h r4.1) as U4.
  { subst r4. destruct (_ && _).
    - eapply unchanged_on_trans; [exact U3|]. by apply alloc_unchanged.
    - exact U3. }
  destruct r4 as [h4 tags]. simpl in U4.
  set (h5 := assign h4 (ref b) "tags" tags).
  assert (unchanged_on D h h5) as U5
    by (eapply unchanged_on_trans; [exact U4|]; by apply assign_unchanged).
  assert (D ⊆ dom h5) as D5 by exact (unchanged_on_dom D h h5 HD U5).
  clearbody h5.
  destruct (alloc h5 _) as [h6 owners] eqn:H6.
  match type of H6 with alloc _ ?o = _ =>
    assert (unchanged_on D h h6) as U6
      by (replace h6 with (alloc h5 o).1 by (by rewrite H6);
          eapply unchanged_on_trans; [exact U5|]; by apply alloc_unchanged)
  end.
  simpl. split; [|done].
  eapply unchanged_on_trans; [exact U6|]. by apply assign_unchanged.
Qed.

Lemma keep_name_and_readme_spec D h b :
  b ∉ D -> D ⊆ dom h ->
  unchanged_on D h (keep_name_and_readme sizeof maxObjSize h (ref b)).1
  /\ exists b', (keep_name_and_readme sizeof maxObjSize h (ref b)).2 = ref b'
                /\ b' ∉ D.
Proof.
  intros Hb HD. unfold keep_name_and_readme. destruct (isTooBig _).
  - split; [by apply alloc_unchanged|]. eexists. split; [reflexivity|].
    intros Hin. apply HD in Hin. by apply is_fresh in Hin.
  - split; [apply unchanged_on_refl|]. by exists b.
Qed.

(** Reading the package in the heap that holds its copy is reading it
    in the heap before. *)
Lemma get_prop_after_copy h pkg k :
  get_prop (alloc h (spread h pkg)).1 pkg k = get_prop h pkg k.
Proof.
  destruct pkg as [| | | | |a]; try done. simpl.
  destruct (decide (fresh (dom h) = a)) as [<-|Hne].
  - rewrite lookup_insert.
    assert (h !! fresh (dom h) = None) as ->
      by (apply not_elem_of_dom, is_fresh).
    rewrite decide_True by done. done.
  - by rewrite lookup_insert_ne.
Qed.

Lemma truncatePackage_spec h pkg :
  unchanged_on (dom h) h
    (truncatePackage sizeof truncate_bytes maxObjSize toPropertyKey h pkg).1
  /\ match
       (truncatePackage sizeof truncate_bytes maxObjSize toPropertyKey h
          pkg).2
     with
     | throw e =>
         over_limit sizeof maxObjSize h pkg = true
         /\ match pkg with
            | undefined | null => e = TypeError
            | _ =>
                (forall s, get_prop h pkg "readme" <> text s)
                /\ e = Error "Input must be string"
            end
     | ok v =>
         (over_limit sizeof maxObjSize h pkg = true ->
          exists s, get_prop h pkg "readme" = text s)
         /\ (v = null
             \/ exists b,
                  v = ref b
                  /\ (b ∉ dom h)
                  /\ isTooBig
                       (checkSize sizeof maxObjSize
                          (truncatePackage sizeof truncate_bytes maxObjSize
                             toPropertyKey h pkg).1 (ref b)) = false)
     end.
Proof.
  rewrite truncatePackage_blocks. unfold over_limit.
  pose proof (get_prop_after_copy h pkg "readme") as Hreadme.
  destruct (alloc h (spread h pkg)) as [h0 sp] eqn:H0.
  assert (sp = ref (fresh (dom h)) /\ h0 = (alloc h (spread h pkg)).1)
    as [-> Hh0] by (by inversion H0).
  assert (fresh (dom h) ∉ dom h) as Hb by apply is_fresh.
  assert (unchanged_on (dom h) h h0) as U0
    by (rewrite Hh0; by apply alloc_unchanged).
  simpl in Hreadme. clear H0 Hh0.
  destruct (cut_readme_spec (dom h) h0 pkg (fresh (dom h)) Hb)
    as [U1 Hcut].
  destruct (cut_readme sizeof truncate_bytes maxObjSize h0 pkg
              (ref (fresh (dom h)))) as [h1 [[]|e]] eqn:Hc;
    cbn [fst snd] in U1, Hcut.
  2:{ simpl. split; [by eapply unchanged_on_trans|].
      destruct Hcut as [Hbig He]. split; [done|].
      rewrite Hreadme in He. exact He. }
  assert (unchanged_on (dom h) h h1) as U1'
    by (by eapply unchanged_on_trans).
  destruct (drop_non_essential_spec (dom h) h1 pkg (fresh (dom h)) Hb)
    as (U2 & Hsmall & Hobject); [by apply (unchanged_on_dom _ h)|].
  assert ((drop_non_essential sizeof maxObjSize toPropertyKey h1 pkg
             (ref (fresh (dom h)))).2 = ok tt) as Hok.
  { destruct Hcut as [[Hbig ->]|(Hbig & Hread & _)].
    - by rewrite (Hsmall Hbig).
    - by apply (Hobject h0). }
  destruct (drop_non_essential sizeof maxObjSize toPropertyKey h1 pkg
              (ref (fresh (dom h)))) as [h2 r2].
  simpl in U2, Hok. subst r2.
  assert (unchanged_on (dom h) h h2) as U2'
    by (by eapply unchanged_on_trans).
  destruct (keep_name_and_readme_spec (dom h) h2 (fresh (dom h)) Hb)
    as (U3 & b' & Hb' & Hfresh'); [by apply (unchanged_on_dom _ h)|].
  destruct (keep_name_and_readme sizeof maxObjSize h2 (ref (fresh (dom h))))
    as [h3 sp3].
  simpl in U3, Hb'. subst sp3. unfold give_up_if_too_big.
  assert (isTooBig (checkSize sizeof maxObjSize h0 (ref (fresh (dom h))))
          = true ->
          exists s, get_prop h pkg "readme" = text s) as Hstring.
  { intros Hbig. destruct Hcut as [[Hsm _]|(_ & _ & s & Hs)].
    - by rewrite Hbig in Hsm.
    - exists s. by rewrite <- Hreadme. }
  destruct (isTooBig (checkSize sizeof maxObjSize h3 (ref b'))) eqn:Hbig;
    simpl.
  - split; [by eapply unchanged_on_trans|]. split; [exact Hstring|].
    by left.
  - split; [by eapply unchanged_on_trans|]. split; [exact Hstring|].
    right. by exists b'.
Qed.

End TruncateFacts.

(** X7.  truncatePackage never touches an object that exists when it is
    called: the package it is given, and everything that package refers
    to, are the same afterwards, also when it throws.  What it changes
    is its own copy. *)
Theorem truncatePackage_leaves_objects_alone
    (sizeof : heap -> value -> Z)
    (truncate_bytes : string -> Qcanon.Qc -> string)
    (maxObjSize : Z) (toPropertyKey : heap -> value -> string)
    (h : heap) (pkg : value) (a : addr) (o : object) :
  h !! a = Some o ->
  (truncatePackage sizeof truncate_bytes maxObjSize toPropertyKey h pkg).1
    !! a
  = Some o.
Proof.
  intros Ha.
  destruct (truncatePackage_spec sizeof truncate_bytes maxObjSize
              toPropertyKey h pkg) as [Hu _].
  rewrite (Hu a); [done|]. by apply elem_of_dom_2 in Ha.
Qed.


(** A package over the limit that has no readme: truncate-utf8-bytes
    is given [undefined] and throws. *)
Lemma truncatePackage_refuses_a_missing_readme :
  (truncatePackage (fun _ _ => 2) (fun s _ => s) 1 (fun _ _ => ""%string)
     {[ 0%nat := {| is_array := false;
                    props := [("name"%string, text "a")] |} ]}
     (ref 0%nat)).2
  = throw (Error "Input must be string").
Proof. vm_compute. reflexivity. Qed.

(** X9.  A package within the limit comes back as a shallow copy: a new
    object with the properties of the package, in their order, holding
    the very same values, so that nested objects are shared with the
    package; it is never the package itself. *)
Theorem truncatePackage_copies_a_small_package
    (sizeof : heap -> value -> Z)
    (truncate_bytes : string -> Qcanon.Qc -> string)
    (maxObjSize : Z) (toPropertyKey : heap -> value -> string)
    (h : heap) (a : addr) (o : object) :
  h !! a = Some o ->
  sizeof (<[fresh (dom h) := {| is_array := false; props := props o |}]> h)
    (ref (fresh (dom h))) <= maxObjSize ->
  truncatePackage sizeof truncate_bytes maxObjSize toPropertyKey h (ref a)
  = (<[fresh (dom h) := {| is_array := false; props := props o |}]> h,
     ok (ref (fresh (dom h))))
  /\ fresh (dom h) <> a.
Proof.
  intros Ha Hsize. split.
  - unfold truncatePackage, alloc, spread. rewrite Ha.
    assert (isTooBig
              (checkSize sizeof maxObjSize
                 (<[fresh (dom h) := {| is_array := false;
                                       props := props o |}]> h)
                 (ref (fresh (dom h)))) = false) as Hbig.
    { unfold checkSize. simpl. apply bool_decide_eq_false. lia. }
    cbv zeta. rewrite Hbig. cbv beta iota zeta. rewrite Hbig.
    cbv beta iota zeta. rewrite Hbig. cbv beta iota zeta. by rewrite Hbig.
  - intros Heq. apply elem_of_dom_2 in Ha. rewrite <- Heq in Ha.
    by apply is_fresh in Ha.
Qed.

Lemma truncatePackage_leaves_objects_alone_witness :
  (truncatePackage (fun _ _ => 0) (fun _ _ => ""%string) 1
     (fun _ _ => ""%string) example_heap (ref 0%nat)).1 !! 1%nat
  = Some {| is_array := false;
            props := [("name"%string, text "R&D");
                      ("link"%string,
                       text "https://www.npmjs.com/~R%26D")] |}.
Proof.
  apply (truncatePackage_leaves_objects_alone (fun _ _ => 0)
           (fun _ _ => ""%string) 1 (fun _ _ => ""%string) example_heap
           (ref 0%nat) 1%nat).
  vm_compute. reflexivity.
Defined.

Lemma truncatePackage_copies_a_small_package_witness :
  truncatePackage (fun _ _ => 0) (fun _ _ => ""%string) 1
    (fun _ _ => ""%string) example_heap (ref 0%nat)
  = (<[fresh (dom example_heap) :=
         {| is_array := false;
            props := [("name"%string, text "a<b");
                      ("readme"%string, text "<h1>T&C</h1>");
                      ("owner"%string, ref 1%nat);
                      ("lastPublisher"%string, ref 1%nat)] |}]> example_heap,
     ok (ref (fresh (dom example_heap))))
  /\ fresh (dom example_heap) <> 0%nat.
Proof.
  apply (truncatePackage_copies_a_small_package (fun _ _ => 0)
           (fun _ _ => ""%string) 1 (fun _ _ => ""%string) example_heap
           0%nat
           {| is_array := false;
              props := [("name"%string, text "a<b");
                        ("readme"%string, text "<h1>T&C</h1>");
                        ("owner"%string, ref 1%nat);
                        ("lastPublisher"%string, ref 1%nat)] |}).
  - vm_compute. reflexivity.
  - lia.
Defined.

(** X11.  The escaping pass changes strings and nothing else: after it
    every object is still there, is an array if it was one, and has the
    same keys in the same order; every value that is not a string is what
    it was, and so is whatever is under the key [readme]. *)
Theorem escaping_pass_keeps_structure
    (escape : string -> string) (h h' : heap) (root root' : value)
    (a : addr) (o : object) :
  forEach (maybeEscape escape) h root = Some (h', root') ->
  h !! a = Some o ->
  dom h' = dom h
  /\ exists o',
       h' !! a = Some o'
       /\ is_array o' = is_array o
       /\ keys o' = keys o
       /\ assoc_get "readme" (props o') = assoc_get "readme" (props o)
       /\ forall k v,
            assoc_get k (props o) = Some v ->
            match v with
            | text _ => exists s', assoc_get k (props o') = Some (text s')
            | _ => assoc_get k (props o') = Some v
            end.
Proof.
  intros Hw Ha.
  destruct (walker_sound escape (size h) [] None root h h' root')
    as (He & _); [by intros ? ? ? [=]|exact Hw|].
  split; [by eapply escaping_dom|].
  destruct (escaping_lookup escape h h' a o He Ha) as (o' & Ho' & Harr & Hk & Hv).
  exists o'. repeat split; try done.
  - specialize (Hv "readme"%string). unfold escaped_from in Hv.
    destruct (assoc_get "readme" (props o)) as [[| | | |s|]|]; try done.
  - intros k v Hkv. specialize (Hv k). rewrite Hkv in Hv.
    unfold escaped_from in Hv. destruct v as [| | | |s|]; try done.
    destruct (decide (k = "readme"%string)) as [?|Hne]; [by eexists|].
    destruct Hv as [m ->]. by eexists.
Qed.

Lemma escaping_pass_keeps_structure_witness :
  dom example_document.1 = dom (<[2%nat := {| is_array := false;
            props := [("name"%string, text "a<b");
                      ("readme"%string, text "<h1>T&C</h1>");
                      ("owner"%string, ref 1%nat);
                      ("lastPublisher"%string, ref 1%nat)] |}]> example_heap)
  /\ exists o',
       example_document.1 !! 2%nat = Some o'
       /\ is_array o' = false
       /\ keys o' = ["name"; "readme"; "owner"; "lastPublisher"]%string
       /\ assoc_get "readme" (props o') = Some (text "<h1>T&C</h1>")
       /\ forall k v,
            assoc_get k [("name"%string, text "a<b");
                         ("readme"%string, text "<h1>T&C</h1>");
                         ("owner"%string, ref 1%nat);
                         ("lastPublisher"%string, ref 1%nat)] = Some v ->
            match v with
            | text _ => exists s', assoc_get k (props o') = Some (text s')
            | _ => assoc_get k (props o') = Some v
            end.
Proof.
  apply (escaping_pass_keeps_structure escape_html
           (<[2%nat := {| is_array := false;
              props := [("name"%string, text "a<b");
                        ("readme"%string, text "<h1>T&C</h1>");
                        ("owner"%string, ref 1%nat);
                        ("lastPublisher"%string, ref 1%nat)] |}]> example_heap)
           example_document.1 (ref 2%nat) (ref 2%nat) 2%nat
           {| is_array := false;
              props := [("name"%string, text "a<b");
                        ("readme"%string, text "<h1>T&C</h1>");
                        ("owner"%string, ref 1%nat);
                        ("lastPublisher"%string, ref 1%nat)] |}).
  - vm_compute. reflexivity.
  - vm_compute. reflexivity.
Defined.

(** ** formatPkg.js: the helpers *)

Import Helpers.

Lemma endsWith_unfold s suffix :
  endsWith s suffix
  = if String.eqb s suffix then true
    else match s with
         | EmptyString => false
         | String _ s' => endsWith s' suffix
         end.
Proof. by destruct s. Qed.

Lemma endsWith_app s suffix :
  endsWith s suffix = true <-> exists stem, s = stem +:+ suffix.
Proof.
  split.
  - induction s as [|c s IH]; rewrite endsWith_unfold.
    + destruct (String.eqb_spec "" suffix) as [<-|]; [|discriminate].
      intros _. by exists ""%string.
    + destruct (String.eqb_spec (String c s) suffix) as [<-|_].
      * intros _. by exists ""%string.
      * intros [stem ->]%IH. by exists (String c stem).
  - intros [stem ->]. induction stem as [|c stem IH];
      rewrite endsWith_unfold.
    + by rewrite String.eqb_refl.
    + destruct (String.eqb _ _); [done|]. exact IH.
Qed.

Lemma length_app_string s t :
  String.length (s +:+ t) = (String.length s + String.length t)%nat.
Proof. induction s as [|c s IH]; simpl; [done|]. by rewrite IH. Qed.

Lemma replace_final_js_stem stem :
  replace_final_js (stem +:+ ".js") = stem +:+ ".d.ts".
Proof.
  induction stem as [|c stem IH]; [reflexivity|].
  change (String c stem +:+ ".js") with (String c (stem +:+ ".js")).
  change (replace_final_js (String c (stem +:+ ".js")))
    with (if String.eqb (String c (stem +:+ ".js")) "js" then "d.ts"%string
          else String c (replace_final_js (stem +:+ ".js"))).
  destruct (String.eqb_spec (String c (stem +:+ ".js")) "js") as [Heq|_].
  - apply (f_equal String.length) in Heq. simpl in Heq.
    rewrite length_app_string in Heq. simpl in Heq. lia.
  - by rewrite IH.
Qed.

(** X12.  When getTypes says that typings are possible, the package
    declares neither [types] nor [typings], its first main is some stem
    followed by [.js], and the file it points to is that stem followed by
    [.d.ts]. *)
Theorem getTypes_points_next_to_main
    (h : heap) (pkg : object) (dtsMain : string) :
  getTypes h pkg = ts_possible dtsMain ->
  truthy (field pkg "types") = false
  /\ truthy (field pkg "typings") = false
  /\ exists stem rest,
       getMains h pkg = (stem +:+ ".js") :: rest
       /\ dtsMain = stem +:+ ".d.ts".
Proof.
  unfold getTypes.
  destruct (truthy (field pkg "types")); [done|].
  destruct (truthy (field pkg "typings")); [done|].
  destruct (getMains h pkg) as [|main rest]; [done|].
  destruct (endsWith main ".js") eqn:He; [|done].
  intros [= <-]. apply endsWith_app in He as [stem ->].
  repeat split. exists stem, rest. split; [done|].
  apply replace_final_js_stem.
Qed.

Lemma getTypes_points_next_to_main_witness :
  truthy (field {| is_array := false; props := [] |} "types") = false
  /\ truthy (field {| is_array := false; props := [] |} "typings") = false
  /\ exists stem rest,
       getMains ∅ {| is_array := false; props := [] |}
       = (stem +:+ ".js") :: rest
       /\ "index.d.ts"%string = stem +:+ ".d.ts".
Proof.
  apply (getTypes_points_next_to_main ∅
           {| is_array := false; props := [] |} "index.d.ts").
  reflexivity.
Defined.

Lemma module_types_fold pkg mains : forall acc,
  Forall (fun t => t = "esm"%string \/ t = "cjs"%string) acc ->
  Forall (fun t => t = "esm"%string \/ t = "cjs"%string)
    (foldl
       (fun moduleTypes main =>
          let moduleTypes :=
            if String.eqb (typeof (field pkg "module")) "string"
               || is_string (field pkg "type") "module"
               || endsWith main ".mjs"
            then moduleTypes ++ ["esm"%string]
            else moduleTypes in
          if is_string (field pkg "type") "commonjs" || endsWith main ".cjs"
          then moduleTypes ++ ["cjs"%string]
          else moduleTypes)
       acc mains).
Proof.
  induction mains as [|main mains IH]; intros acc Hacc; [done|].
  cbn [foldl]. apply IH. cbv zeta.
  destruct (String.eqb _ _ || _ || endsWith main ".mjs");
    destruct (_ || endsWith main ".cjs");
    repeat (apply Forall_app; split); try done;
    apply Forall_singleton; auto.
Qed.

(** X13.  getModuleTypes never returns an empty list; what it returns
    holds only [esm], [cjs] and [unknown]; [unknown] is there exactly when
    it is alone; and a package without a usable main is [unknown] whatever
    its [type] and [module] say. *)
Theorem getModuleTypes_is_never_empty (h : heap) (pkg : object) :
  getModuleTypes h pkg <> []
  /\ Forall (fun t => t = "esm"%string \/ t = "cjs"%string
                      \/ t = "unknown"%string)
       (getModuleTypes h pkg)
  /\ ("unknown"%string ∈ getModuleTypes h pkg
      <-> getModuleTypes h pkg = ["unknown"%string])
  /\ match getMains h pkg with
     | [] => getModuleTypes h pkg = ["unknown"%string]
     | _ :: _ => True
     end.
Proof.
  unfold getModuleTypes.
  pose proof (module_types_fold pkg (getMains h pkg) [] (Forall_nil_2 _))
    as Hfold.
  destruct (getMains h pkg) as [|m ms] eqn:Hm.
  - simpl. repeat split; try done.
    + by repeat constructor; auto.
    + intros _. apply list_elem_of_here.
  - destruct (foldl _ _ _) as [|t ts] eqn:Hf.
    + repeat split; try done.
      * by repeat constructor; auto.
      * intros _. apply list_elem_of_here.
    + repeat split; try done.
      * eapply Forall_impl; [exact Hfold|]. simpl. tauto.
      * intros Hin. rewrite Forall_forall in Hfold.
        by destruct (Hfold _ Hin).
      * intros Heq. rewrite Heq. apply list_elem_of_here.
Qed.

(** X14.  The license of a document is a string or [null], never an
    object, a number or a boolean; a license given as a non-empty string
    is kept as it is. *)
Theorem getLicense_is_a_string_or_null (h : heap) (cleaned : object) :
  (getLicense h cleaned = null
   \/ exists s, getLicense h cleaned = text s)
  /\ match field cleaned "license" with
     | text s =>
         getLicense h cleaned = if String.eqb s "" then null else text s
     | undefined | null => getLicense h cleaned = null
     | _ => True
     end.
Proof.
  unfold getLicense.
  destruct (field cleaned "license") as [| |b|n|s|a] eqn:Hl; simpl.
  - split; [by left|done].
  - split; [by left|done].
  - split; [|done]. destruct b; by left.
  - split; [|done]. destruct (negb _); by left.
  - destruct (String.eqb s ""); simpl; split; eauto.
  - split; [|done].
    destruct (match h !! a with Some o => _ | None => _ end)
      as [| |b|n|s|a']; simpl; eauto.
Qed.

Lemma add_NoDup x set : NoDup set -> NoDup (add x set).
Proof.
  intros Hnd. unfold add. destruct (decide (x ∈ set)); [done|].
  apply NoDup_app. split; [done|]. split; [|apply NoDup_singleton].
  intros y Hy ->%list_elem_of_singleton. done.
Qed.

Lemma add_has x set : x ∈ add x set.
Proof.
  unfold add. destruct (decide (x ∈ set)); [done|].
  apply elem_of_app. right. apply list_elem_of_here.
Qed.

Lemma add_keeps x y set : y ∈ set -> y ∈ add x set.
Proof.
  intros Hy. unfold add. destruct (decide (x ∈ set)); [done|].
  apply elem_of_app. by left.
Qed.

Lemma add_length x set : (length (add x set) <= S (length set))%nat.
Proof.
  unfold add. destruct (decide (x ∈ set)); [lia|].
  rewrite length_app. simpl. lia.
Qed.

Lemma add_head x y set : head (add x (y :: set)) = Some y.
Proof. unfold add. by destruct (decide (x ∈ y :: set)). Qed.

Lemma add_first x : add x [] = [x].
Proof. unfold add. rewrite decide_False; [done|]. apply not_elem_of_nil. Qed.

(** X15.  The alternative names of a package have no duplicates, begin
    with the name stripped of its separators, include the name with its
    separators turned into spaces and the name itself, and are five at
    most. *)
Theorem getAlternativeNames_is_a_set (name : string) :
  NoDup (getAlternativeNames name)
  /\ head (getAlternativeNames name) = Some (concatenate name)
  /\ split false name ∈ getAlternativeNames name
  /\ name ∈ getAlternativeNames name
  /\ (1 <= length (getAlternativeNames name) <= 5)%nat.
Proof.
  unfold getAlternativeNames. cbv zeta. rewrite add_first.
  set (s1 := add (split false name) [concatenate name]).
  assert (NoDup s1) as N1
    by (apply add_NoDup, NoDup_singleton).
  assert (exists tl, s1 = concatenate name :: tl) as [tl1 H1].
  { subst s1. unfold add. destruct (decide _); by eexists. }
  assert (split false name ∈ s1) as S1 by apply add_has.
  assert (length s1 <= 2)%nat as L1 by apply add_length.
  clearbody s1.
  set (s2 := if endsWith name ".js" then _ else _).
  assert (NoDup s2 /\ (exists tl, s2 = concatenate name :: tl)
          /\ split false name ∈ s2 /\ (length s2 <= 4)%nat)
    as (N2 & [tl2 H2] & S2 & L2).
  { subst s2. destruct (endsWith name ".js"); [|destruct (endsWith name "js")].
    - split; [by apply add_NoDup|]. split; [|split].
      + rewrite H1. unfold add. destruct (decide _); by eexists.
      + by apply add_keeps.
      + pose proof (add_length
                      (substring 0 (String.length name - 3) name) s1). lia.
    - split; [by apply add_NoDup|]. split; [|split].
      + rewrite H1. unfold add. destruct (decide _); by eexists.
      + by apply add_keeps.
      + pose proof (add_length
                      (substring 0 (String.length name - 2) name) s1). lia.
    - split; [by apply add_NoDup, add_NoDup|]. split; [|split].
      + rewrite H1. unfold add at 2. destruct (decide _);
          unfold add; destruct (decide _); by eexists.
      + by apply add_keeps, add_keeps.
      + pose proof (add_length (name +:+ ".js") s1).
        pose proof (add_length (name +:+ "js") (add (name +:+ ".js") s1)).
        lia. }
  clearbody s2. repeat split.
  - by apply add_NoDup.
  - rewrite H2. apply add_head.
  - by apply add_keeps.
  - apply add_has.
  - rewrite H2. unfold add. destruct (decide _); simpl; [lia|].
    rewrite length_app. simpl. lia.
  - pose proof (add_length name s2). lia.
Qed.

Lemma assoc_set_fresh k x l : k ∉ l.*1 -> assoc_set k x l = l ++ [(k, x)].
Proof.
  induction l as [|[k' v] l IH]; intros Hk; [done|].
  simpl in *. apply not_elem_of_cons in Hk as [Hne Hk].
  rewrite decide_False by done. by rewrite IH.
Qed.

Lemma fromEntries_from acc l :
  NoDup (acc ++ l).*1 ->
  foldl (fun o kv => assoc_set kv.1 kv.2 o) acc l = acc ++ l.
Proof.
  revert acc. induction l as [|[k v] l IH]; intros acc Hnd; simpl.
  - by rewrite app_nil_r.
  - rewrite assoc_set_fresh.
    + rewrite (cons_middle (k, v) acc l), app_assoc in Hnd |- *.
      by apply IH.
    + rewrite fmap_app in Hnd. apply NoDup_app in Hnd as (_ & Hd & _).
      intros Hin. apply (Hd k Hin). simpl. apply list_elem_of_here.
Qed.

Lemma fromEntries_NoDup l : NoDup l.*1 -> fromEntries l = l.
Proof. intros Hnd. unfold fromEntries. by rewrite fromEntries_from. Qed.

Lemma filter_keys_sublist (P : string * value -> bool) l :
  (List.filter P l).*1 `sublist_of` l.*1.
Proof.
  induction l as [|kv l IH]; simpl; [done|].
  destruct (P kv); simpl; by constructor.
Qed.

Lemma assoc_get_filter (P : string -> bool) k l :
  assoc_get k (List.filter (fun kv : string * value => P kv.1) l)
  = if P k then assoc_get k l else None.
Proof.
  induction l as [|[k' v] l IH]; simpl; [by destruct (P k)|].
  destruct (P k') eqn:HP; simpl; destruct (decide (k' = k)) as [->|Hne];
    try done.
  - by rewrite HP.
  - by rewrite HP in IH |- *.
Qed.

(** X16.  When the package has times and a versions object, getVersions
    returns the times of the real versions and nothing else: a key of
    [time] is kept, with its value and in its place, exactly when it is a
    key of [rawPkg.versions]. *)
Theorem getVersions_keeps_the_real_versions
    (h : heap) (cleaned rawPkg : object) (realVersions : list string) :
  let time := get_prop h (field cleaned "other") "time" in
  truthy (field cleaned "other") = true ->
  truthy time = true ->
  object_keys h (field rawPkg "versions") = Some realVersions ->
  NoDup (entries h time).*1 ->
  exists versions,
    getVersions h cleaned rawPkg = Some versions
    /\ versions.*1 `sublist_of` (entries h time).*1
    /\ forall k v,
         assoc_get k versions = Some v
         <-> k ∈ realVersions /\ assoc_get k (entries h time) = Some v.
Proof.
  intros time Hother Htime Hkeys Hnd. unfold getVersions.
  fold time. rewrite Hother, Htime, Hkeys. simpl.
  eexists. split; [reflexivity|].
  rewrite fromEntries_NoDup.
  - split; [apply filter_keys_sublist|]. intros k v.
    pose proof (assoc_get_filter (fun k => bool_decide (k ∈ realVersions))
                  k (entries h time)) as Hf.
    cbv beta in Hf. rewrite Hf.
    destruct (bool_decide_reflect (k ∈ realVersions)); naive_solver.
  - apply (sublist_NoDup _ (entries h time).*1);
      [exact Hnd|apply filter_keys_sublist].
Qed.

Lemma getVersions_keeps_the_real_versions_witness :
  exists versions,
    getVersions example_registry example_cleaned example_rawPkg
    = Some versions
    /\ versions.*1 `sublist_of` ["created"; "1.0.0"; "modified"]%string
    /\ forall k v,
         assoc_get k versions = Some v
         <-> k ∈ ["1.0.0"%string]
             /\ assoc_get k
                  [("created"%string, text "2011-01-01");
                   ("1.0.0"%string, text "2011-01-02");
                   ("modified"%string, text "2012-01-01")] = Some v.
Proof.
  apply (getVersions_keeps_the_real_versions
           example_registry example_cleaned example_rawPkg ["1.0.0"%string]).
  - reflexivity.
  - reflexivity.
  - reflexivity.
  - apply (bool_decide_unpack _). vm_compute. reflexivity.
Defined.

(** X17.  getVersions throws exactly when the package has times but
    [rawPkg.versions] is [undefined] or [null]; with no times it returns
    the empty object whatever [rawPkg] holds. *)
Theorem getVersions_throws_without_versions
    (h : heap) (cleaned rawPkg : object) :
  (getVersions h cleaned rawPkg = None
   <-> truthy (field cleaned "other") = true
       /\ truthy (get_prop h (field cleaned "other") "time") = true
       /\ (field rawPkg "versions" = undefined
           \/ field rawPkg "versions" = null))
  /\ (truthy (field cleaned "other")
      && truthy (get_prop h (field cleaned "other") "time") = false ->
      getVersions h cleaned rawPkg = Some []).
Proof.
  unfold getVersions.
  destruct (truthy (field cleaned "other"));
    destruct (truthy (get_prop h (field cleaned "other") "time")); simpl.
  - split; [|done]. unfold object_keys.
    destruct (field rawPkg "versions"); simpl; naive_solver.
  - split; [|done]. naive_solver.
  - split; [|done]. naive_solver.
  - split; [|done]. naive_solver.
Qed.

Section AuthorFacts.

Variable gravatarUrl : string -> string.
Variable encodeURIComponent : heap -> value -> option string.

Lemma formatUser_nullish h user :
  user = undefined \/ user = null ->
  formatUser gravatarUrl encodeURIComponent h user = throw TypeError.
Proof. by intros [-> | ->]. Qed.

Lemma formatUser_not_nullish h user :
  user <> undefined -> user <> null ->
  formatUser gravatarUrl encodeURIComponent h user
  = match encodeURIComponent h (get_prop h user "name") with
    | None => throw URIError
    | Some encoded =>
        ok (assoc_set "link"
              (text ("https://www.npmjs.com/~" +:+ encoded))
              (assoc_set "avatar"
                 (text match get_prop h user "email" with
                       | text email =>
                           if no_at_sign email
                           then "https://www.gravatar.com/avatar/"
                           else gravatarUrl email
                       | _ => "https://www.gravatar.com/avatar/"
                       end)
                 (entries h user)))
    end.
Proof.
  intros Hu Hn. unfold formatUser, getGravatar.
  assert (forall k, read h user k = ok (get_prop h user k)) as Hread
    by (intros k; by destruct user).
  rewrite !Hread.
  destruct (get_prop h user "email") as [| | | |email|]; try done.
  destruct (String.eqb email "") eqn:He.
  - apply String.eqb_eq in He as ->. done.
  - simpl. rewrite He. simpl. by destruct (no_at_sign email).
Qed.



(** X19.  The user returned by getAuthor is the author object, or else
    the first owner, with two properties set anew: [avatar], which is the
    gravatar of the e-mail address when that is a string with an at sign
    and the default picture otherwise, and [link], the profile page of the
    user's name; every other property is the one of the person. *)
Theorem getAuthor_formats_the_person
    (h : heap) (cleaned : object) (user : list (string * value)) :
  getAuthor gravatarUrl encodeURIComponent h cleaned = ok (Some user) ->
  exists person encoded,
    (person =
       if truthy (field cleaned "author")
          && String.eqb (typeof (field cleaned "author")) "object"
       then field cleaned "author"
       else get_prop h (field cleaned "owners") "0")
    /\ assoc_get "avatar" user
       = Some (text match get_prop h person "email" with
                    | text email =>
                        if no_at_sign email
                        then "https://www.gravatar.com/avatar/"
                        else gravatarUrl email
                    | _ => "https://www.gravatar.com/avatar/"
                    end)
    /\ encodeURIComponent h (get_prop h person "name") = Some encoded
    /\ assoc_get "link" user
       = Some (text ("https://www.npmjs.com/~" +:+ encoded))
    /\ forall k, k <> "avatar"%string -> k <> "link"%string ->
                 assoc_get k user = assoc_get k (entries h person).
Proof.
  unfold getAuthor. cbv zeta. intros Hok.
  set (person :=
         if truthy (field cleaned "author")
            && String.eqb (typeof (field cleaned "author")) "object"
         then field cleaned "author"
         else get_prop h (field cleaned "owners") "0").
  assert (formatUser gravatarUrl encodeURIComponent h person = ok user)
    as Hformat.
  { subst person.
    destruct (truthy (field cleaned "author")
              && String.eqb (typeof (field cleaned "author")) "object").
    - destruct (formatUser _ _ h (field cleaned "author")); congruence.
    - destruct (isArray h (field cleaned "owners")
                && String.eqb
                     (typeof (get_prop h (field cleaned "owners") "0"))
                     "object"); [|discriminate].
      destruct (formatUser _ _ h (get_prop h (field cleaned "owners") "0"));
        congruence. }
  clearbody person. clear Hok.
  assert (person <> undefined /\ person <> null) as [Hu Hn].
  { split; intros ->; by rewrite formatUser_nullish in Hformat by auto. }
  rewrite formatUser_not_nullish in Hformat by done.
  destruct (encodeURIComponent h (get_prop h person "name")) as [encoded|]
    eqn:Hencoded; [|discriminate].
  injection Hformat as <-. exists person, encoded.
  split; [reflexivity|]. split; [|split; [exact Hencoded|split]].
  - rewrite assoc_get_set_ne by done. by rewrite assoc_get_set_eq.
  - by rewrite assoc_get_set_eq.
  - intros k Ha Hl. by rewrite !assoc_get_set_ne.
Qed.

End AuthorFacts.

Lemma getAuthor_formats_the_person_witness :
  exists person encoded,
    person = ref 6%nat
    /\ assoc_get "avatar"
         [("name"%string, text "jane");
          ("email"%string, text "jane@example.org");
          ("link"%string, text "https://www.npmjs.com/~jane");
          ("avatar"%string, text "gravatar:jane@example.org")]
       = Some (text match get_prop example_registry person "email" with
                    | text email =>
                        if no_at_sign email
                        then "https://www.gravatar.com/avatar/"
                        else "gravatar:" +:+ email
                    | _ => "https://www.gravatar.com/avatar/"
                    end)
    /\ match get_prop example_registry person "name" with
       | text s => Some s
       | _ => None
       end = Some encoded
    /\ assoc_get "link"
         [("name"%string, text "jane");
          ("email"%string, text "jane@example.org");
          ("link"%string, text "https://www.npmjs.com/~jane");
          ("avatar"%string, text "gravatar:jane@example.org")]
       = Some (text ("https://www.npmjs.com/~" +:+ encoded))
    /\ forall k, k <> "avatar"%string -> k <> "link"%string ->
                 assoc_get k
                   [("name"%string, text "jane");
                    ("email"%string, text "jane@example.org");
                    ("link"%string, text "https://www.npmjs.com/~jane");
                    ("avatar"%string, text "gravatar:jane@example.org")]
                 = assoc_get k (entries example_registry person).
Proof.
  apply (getAuthor_formats_the_person
           (fun email => "gravatar:" +:+ email)
           (fun h v => match v with text s => Some s | _ => None end)
           example_registry example_cleaned).
  reflexivity.
Defined.
